(** * Set-List-Generator: the scoring function and the greedy optimizer

    A shallow embedding of [generator.py].  A song is the dict
    [{'name': ..., 'performers': set(...)}] that [parseCsv] builds; the
    performers are a Python [set] of strings, here a [gset string].

    Numbers.  Positions and indices are Python [int]s, here [Z], with the
    slice and [insert] rules for negative and out-of-range indices written
    out.  The score is a Python [float] that starts at [0.0] and only ever
    has integer penalties subtracted from it, so it is an integer-valued
    float; it is modelled by [Z] (exact below 2^53), and the initial
    [float('-inf')] of the two "best so far" variables by [NegInf].

    The code is embedded twice.  First as functions on lists of songs, with
    the state of the random generator passed along; the properties of the
    score, of the position search and of the optimizer are proved on these.
    Then as computations over a heap of list and dict objects ([Obj],
    [Store]), where [copy], [pop], [insert], [extend] and [random.shuffle]
    act on objects named by references; what a call leaves untouched is
    proved there, and [StoreRuns.run_generateSetlist] shows that a call on
    the heap computes what the functions compute.

    Around [generateSetlist]: [parseCsv] is modelled from the rows that
    [csv.reader] yields, [print_setlist] by the statistics it computes
    (what it prints is left out), and [main] as the two calls it
    chains. *)

From Stdlib Require Import ZArith String Ascii List Permutation Lia.
From stdpp Require Import base decidable numbers option list gmap strings sorting.

Local Open Scope Z_scope.

(** ** Songs *)

Record Song := mkSong { name : string; performers : gset string }.

(** Python's [==] on two such dicts: same name and same performer set. *)
#[global] Instance Song_eq_dec : EqDecision Song.
Proof. solve_decision. Defined.

(** ** Python lists: slices and [insert] *)

Module Py.

(** How a slice bound or an [insert] position is normalised against a list
    of length [len]: a negative index counts from the end, and the result
    is clipped to [0, len]. *)
Definition norm (len i : Z) : Z :=
  if i <? 0 then Z.max 0 (i + len) else Z.min i len.

Definition len {A} (l : list A) : Z := Z.of_nat (length l).

(** [l[lo:hi]] *)
Definition slice {A} (l : list A) (lo hi : Z) : list A :=
  let lo' := norm (len l) lo in
  let hi' := norm (len l) hi in
  take (Z.to_nat (hi' - lo')) (drop (Z.to_nat lo') l).

(** [l[:hi]] *)
Definition slice_to {A} (l : list A) (hi : Z) : list A :=
  take (Z.to_nat (norm (len l) hi)) l.

(** [l[lo:]] *)
Definition slice_from {A} (l : list A) (lo : Z) : list A :=
  drop (Z.to_nat (norm (len l) lo)) l.

(** [l.insert(pos, x)] *)
Definition insert {A} (l : list A) (pos : Z) (x : A) : list A :=
  let k := Z.to_nat (norm (len l) pos) in
  take k l ++ x :: drop k l.

(** [range(lo, hi)] *)
Definition range (lo hi : Z) : list Z := seqZ lo (hi - lo).

(** [enumerate(l, k)] *)
Fixpoint enumerate_from {A} (k : Z) (l : list A) : list (Z * A) :=
  match l with
  | [] => []
  | x :: l' => (k, x) :: enumerate_from (k + 1) l'
  end.

(** [enumerate(l)] *)
Definition enumerate {A} (l : list A) : list (Z * A) := enumerate_from 0 l.

(** [min(l)] of a list that is not empty; on [[]] Python raises. *)
Definition min (l : list Z) : option Z :=
  match l with
  | [] => None
  | x :: l' => Some (fold_left Z.min l' x)
  end.

(** [for x in xs: acc = body(x, acc)] *)
Definition for_each {A S} (xs : list A) (body : A -> S -> S) (acc : S) : S :=
  fold_left (fun s x => body x s) xs acc.

End Py.

(** ** Scores: a float that is an integer or [-inf] *)

Inductive score_t := NegInf | Fin (z : Z).

(** [a > b] on floats *)
Definition score_gt (a b : score_t) : bool :=
  match a, b with
  | NegInf, _ => false
  | Fin _, NegInf => true
  | Fin x, Fin y => y <? x
  end.

Definition score_le (a b : score_t) : Prop :=
  match a, b with
  | NegInf, _ => True
  | Fin _, NegInf => False
  | Fin x, Fin y => x <= y
  end.

(** ** [calculate_overlap] *)

Definition calculate_overlap (song1 song2 : Song) : Z :=
  Z.of_nat (size (performers song1 ∩ performers song2)).

(** ** [calculate_setlist_score] *)

(** The body of the inner loop: [score -= overlap * (4 - distance) * 10].
    Both indices are below [len(setlist)] by the loop bounds, so the
    subscripts never raise. *)
Definition score_pair (setlist : list Song) (i j : Z) (score : Z) : Z :=
  match setlist !! Z.to_nat i, setlist !! Z.to_nat j with
  | Some si, Some sj =>
      let overlap := calculate_overlap si sj in
      let distance := j - i in
      let penalty := overlap * (4 - distance) * 10 in
      score - penalty
  | _, _ => score
  end.

Definition calculate_setlist_score (setlist : list Song) : Z :=
  Py.for_each (Py.range 0 (Py.len setlist)) (fun i score =>
    Py.for_each (Py.range (i + 1) (Z.min (i + 4) (Py.len setlist)))
      (fun j score => score_pair setlist i j score) score) 0.

(** ** [find_best_position_for_song] *)

Definition find_best_position_for_song (partial_setlist : list Song)
    (song : Song) (start_idx end_idx : Z) : Z :=
  snd (Py.for_each (Py.range start_idx (end_idx + 1))
    (fun pos '(best_score, best_position) =>
       let test_list :=
         Py.slice_to partial_setlist pos ++ [song]
           ++ Py.slice_from partial_setlist pos in
       let section_to_score :=
         Py.slice test_list (Z.max 0 (pos - 3))
           (Z.min (Py.len test_list) (pos + 4)) in
       let score := calculate_setlist_score section_to_score in
       if score_gt (Fin score) best_score
       then (Fin score, pos)
       else (best_score, best_position))
    (NegInf, start_idx)).

(** ** [generateSetlist] *)

(** ['Bouncy' in s['name']]: substring test. *)
Fixpoint str_contains (sub s : string) : bool :=
  String.prefix sub s
  || match s with
     | EmptyString => false
     | String _ s' => str_contains sub s'
     end.

(** [next((s for s in songs if sub in s['name']), None)] *)
Definition find_song (sub : string) (songs : list Song) : option Song :=
  List.find (fun s => str_contains sub (name s)) songs.

(** [[s for s in songs if s not in [bouncy, this_world]]] *)
Definition available_songs (songs : list Song) (bouncy this_world : Song)
  : list Song :=
  List.filter (fun s => negb (bool_decide (s ∈ [bouncy; this_world]))) songs.

Definition total_needed : Z := 19.

(** The first [while] loop of a trial: songs are popped from the front of
    [remaining] and inserted at the best position found. *)
Fixpoint place_songs (setlist remaining : list Song) : list Song * list Song :=
  match remaining with
  | song :: rest =>
      if Py.len setlist <? total_needed then
        if Py.len setlist =? 0 then place_songs (setlist ++ [song]) rest
        else
          let pos :=
            find_best_position_for_song setlist song 0 (Py.len setlist) in
          place_songs (Py.insert setlist pos song) rest
      else (setlist, remaining)
  | [] => (setlist, remaining)
  end.

(** The second [while] loop: guests are inserted at evenly spread
    positions.  [guest_idx] grows by one per iteration and the loop stops
    at [len(guest_performances)], so [fuel] iterations suffice when
    [fuel + guest_idx >= len(guest_performances)]. *)
Fixpoint place_guests (fuel : nat) (guest_performances setlist : list Song)
    (guest_idx : Z) : list Song * Z :=
  match fuel with
  | O => (setlist, guest_idx)
  | S fuel' =>
      if (Py.len setlist <? total_needed)
         && (guest_idx <? Py.len guest_performances)
      then
        match guest_performances !! Z.to_nat guest_idx with
        | Some guest =>
            let ideal_pos :=
              (Py.len setlist * (guest_idx + 1))
                / (Py.len guest_performances + 1) in
            place_guests fuel' guest_performances
              (Py.insert setlist ideal_pos guest) (guest_idx + 1)
        | None => (setlist, guest_idx)
        end
      else (setlist, guest_idx)
  end.

(** One trial after the shuffle: lines 121-144. *)
Definition build_setlist (shuffled guest_performances : list Song)
    (bouncy this_world : Song) : list Song :=
  let remaining := shuffled in
  let '(setlist, _) := place_songs [] remaining in
  let '(setlist, _) :=
    place_guests (length guest_performances) guest_performances setlist 0 in
  setlist ++ [bouncy; this_world].

Inductive exn :=
| ValueError (msg : string)
| TypeError (msg : string)
| IndexError (msg : string).

(** The slicing at the end, lines 153-161.  [best_setlist] is still [None]
    when no trial ran, and subscripting [None] raises a [TypeError]. *)
Definition split_groups (best_setlist : option (list Song))
  : exn + list (list Song) :=
  match best_setlist with
  | None => inl (TypeError "'NoneType' object is not subscriptable")
  | Some l =>
      inr [Py.slice l 0 5; Py.slice l 5 10; Py.slice l 10 15; Py.slice l 15 21]
  end.

Section Optimizer.

(** [random.shuffle] draws from the module's generator.  The generator
    state is passed explicitly: from a state and a length it yields a
    rearrangement of the indices [0 .. n-1] and the next state. *)
Context {RNG : Type} (random_perm : RNG -> nat -> list nat * RNG).

(** [random.shuffle(x)] *)
Definition shuffle {A} (g : RNG) (x : list A) : list A * RNG :=
  let '(idx, g') := random_perm g (length x) in
  (omap (fun i => x !! i) idx, g').

Record opt_state := OptState {
  best_setlist : option (list Song);
  best_score : score_t;
  rng : RNG
}.

(** The sequence a trial builds and the generator state it leaves. *)
Definition run_trial (available guest_performances : list Song)
    (bouncy this_world : Song) (g : RNG) : list Song * RNG :=
  let '(shuffled, g') := shuffle g available in
  (build_setlist shuffled guest_performances bouncy this_world, g').

(** The body of [for iteration in range(iterations)]. *)
Definition trial_step (available guest_performances : list Song)
    (bouncy this_world : Song) (st : opt_state) : opt_state :=
  let '(setlist, g') :=
    run_trial available guest_performances bouncy this_world (rng st) in
  let score := calculate_setlist_score setlist in
  if score_gt (Fin score) (best_score st)
  then OptState (Some setlist) (Fin score) g'
  else OptState (best_setlist st) (best_score st) g'.

Fixpoint trials_loop (n : nat) (step : opt_state -> opt_state)
    (st : opt_state) : opt_state :=
  match n with
  | O => st
  | S n' => trials_loop n' step (step st)
  end.

(** Lines 106-151: the state the trial loop ends in. *)
Definition optimize (songs guest_performances : list Song)
    (bouncy this_world : Song) (iterations : Z) (g : RNG) : opt_state :=
  let available := available_songs songs bouncy this_world in
  trials_loop (Z.to_nat iterations)
    (trial_step available guest_performances bouncy this_world)
    (OptState None NegInf g).

(** A song that [next] finds has a ['name'] key, so as a dict it is not
    empty and [not bouncy] is false for it: the test of line 102 only
    fails on [None]. *)
Definition generateSetlist (songs guest_performances : list Song)
    (iterations : Z) (g : RNG) : (exn + list (list Song)) * RNG :=
  match find_song "Bouncy" songs, find_song "This World" songs with
  | Some bouncy, Some this_world =>
      let st := optimize songs guest_performances bouncy this_world
                  iterations g in
      (split_groups (best_setlist st), rng st)
  | _, _ =>
      (inl (ValueError "Bouncy and This World must be in the song list"), g)
  end.

End Optimizer.

Arguments opt_state : clear implicits.
Arguments OptState {RNG}.

(** ** The same code over a store of Python objects

    Lists and song dicts are objects on a heap and variables hold
    references to them, so that two variables can name one list and a
    method call on one is seen through the other.  The helpers that only
    read ([calculate_setlist_score], [find_best_position_for_song]) are
    applied to the values read from the heap; the temporary lists they
    build, and the literal [[bouncy, this_world]] of line 106, are dropped
    at once and are not heap objects. *)

Module Obj.

Definition loc := nat.

Inductive obj :=
| ListObj (items : list loc)     (* a list of references *)
| DictObj (s : Song).            (* a song dict *)

Section Objects.

Context {RNG : Type} (random_perm : RNG -> nat -> list nat * RNG).

Record world := World { heap : gmap loc obj; gen : RNG }.

(** A computation changes the world and returns a value or raises. *)
Definition M (A : Type) : Type := world -> (exn + A) * world.

#[local] Instance M_ret : MRet M := fun A a w => (inr a, w).

#[local] Instance M_bind : MBind M := fun A B k m w =>
  match m w with
  | (inr a, w') => k a w'
  | (inl e, w') => (inl e, w')
  end.

Definition raise {A} (e : exn) : M A := fun w => (inl e, w).

(** *** Primitive operations on objects *)

Definition new_list (items : list loc) : M loc := fun w =>
  let l := fresh (dom (heap w)) in
  (inr l, World (<[l := ListObj items]> (heap w)) (gen w)).

Definition read_list (l : loc) : M (list loc) := fun w =>
  match heap w !! l with
  | Some (ListObj items) => (inr items, w)
  | _ => (inl (TypeError "not a list"), w)
  end.

Definition write_list (l : loc) (items : list loc) : M unit := fun w =>
  (inr tt, World (<[l := ListObj items]> (heap w)) (gen w)).

Definition read_song (r : loc) : M Song := fun w =>
  match heap w !! r with
  | Some (DictObj s) => (inr s, w)
  | _ => (inl (TypeError "not a song dict"), w)
  end.

Fixpoint read_songs (refs : list loc) : M (list Song) :=
  match refs with
  | [] => mret []
  | r :: rest => s ← read_song r; ss ← read_songs rest; mret (s :: ss)
  end.

(** *** List methods *)

(** [l.copy()] *)
Definition list_copy (l : loc) : M loc :=
  items ← read_list l; new_list items.

(** [l.pop(0)] *)
Definition list_pop0 (l : loc) : M loc :=
  items ← read_list l;
  match items with
  | [] => raise (IndexError "pop from empty list")
  | x :: rest => write_list l rest;; mret x
  end.

(** [l.append(x)] *)
Definition list_append (l : loc) (x : loc) : M unit :=
  items ← read_list l; write_list l (items ++ [x]).

(** [l.insert(pos, x)] *)
Definition list_insert (l : loc) (pos : Z) (x : loc) : M unit :=
  items ← read_list l; write_list l (Py.insert items pos x).

(** [l.extend(xs)] *)
Definition list_extend (l : loc) (xs : list loc) : M unit :=
  items ← read_list l; write_list l (items ++ xs).

(** The generator rearranges [items] and moves to its next state. *)
Definition draw_shuffle (items : list loc) : M (list loc) := fun w =>
  let '(items', g') := shuffle random_perm (gen w) items in
  (inr items', World (heap w) g').

(** [random.shuffle(l)]: in place. *)
Definition random_shuffle (l : loc) : M unit :=
  items ← read_list l;
  items' ← draw_shuffle items;
  write_list l items'.

End Objects.

Arguments world : clear implicits.
Arguments M : clear implicits.
Arguments World {RNG}.

End Obj.

(** *** [generateSetlist] over the store *)

Module Store.
Import Obj.

Section Store.

Context {RNG : Type} (random_perm : RNG -> nat -> list nat * RNG).

#[local] Existing Instance M_ret.
#[local] Existing Instance M_bind.

#[local] Abbreviation M := (Obj.M RNG).

(** [next((s for s in songs if sub in s['name']), None)] *)
Fixpoint find_song (sub : string) (refs : list loc) : M (option loc) :=
  match refs with
  | [] => mret None
  | r :: rest =>
      s ← read_song r;
      if str_contains sub (name s) then mret (Some r) else find_song sub rest
  end.

(** The elements of [[s for s in songs if s not in [bouncy, this_world]]];
    [not in] compares the dicts with [==]. *)
Fixpoint available_songs (refs : list loc) (bouncy this_world : Song)
  : M (list loc) :=
  match refs with
  | [] => mret []
  | r :: rest =>
      s ← read_song r;
      keep ← available_songs rest bouncy this_world;
      mret (if negb (bool_decide (s ∈ [bouncy; this_world]))
            then r :: keep else keep)
  end.

(** The first [while] loop; every iteration pops [remaining], so its
    length on entry is enough fuel. *)
Fixpoint place_songs (fuel : nat) (setlist remaining : loc) : M unit :=
  match fuel with
  | O => mret tt
  | S fuel' =>
      sl ← read_list setlist;
      rem ← read_list remaining;
      if (Py.len sl <? total_needed) && negb (bool_decide (rem = [])) then
        song ← list_pop0 remaining;
        (if Py.len sl =? 0 then list_append setlist song
         else
           partial_setlist ← read_songs sl;
           s ← read_song song;
           let pos :=
             find_best_position_for_song partial_setlist s 0
               (Py.len partial_setlist) in
           list_insert setlist pos song);;
        place_songs fuel' setlist remaining
      else mret tt
  end.

(** The second [while] loop. *)
Fixpoint place_guests (fuel : nat) (guest_performances setlist : loc)
    (guest_idx : Z) : M Z :=
  match fuel with
  | O => mret guest_idx
  | S fuel' =>
      sl ← read_list setlist;
      guests ← read_list guest_performances;
      if (Py.len sl <? total_needed) && (guest_idx <? Py.len guests) then
        match guests !! Z.to_nat guest_idx with
        | Some guest =>
            let ideal_pos :=
              (Py.len sl * (guest_idx + 1)) / (Py.len guests + 1) in
            list_insert setlist ideal_pos guest;;
            place_guests fuel' guest_performances setlist (guest_idx + 1)
        | None => raise (IndexError "list index out of range")
        end
      else mret guest_idx
  end.

(** Lines 116-144: one trial; returns the reference held by [setlist]. *)
Definition run_trial (available guest_performances bouncy this_world : loc)
  : M loc :=
  shuffled ← list_copy available;
  random_shuffle random_perm shuffled;;
  setlist ← new_list [];
  remaining ← list_copy shuffled;
  rem ← read_list remaining;
  place_songs (length rem) setlist remaining;;
  guests ← read_list guest_performances;
  place_guests (length guests) guest_performances setlist 0;;
  list_extend setlist [bouncy; this_world];;
  mret setlist.

(** Lines 115-151; [best] carries [best_setlist] and [best_score]. *)
Fixpoint trials_loop (n : nat)
    (available guest_performances bouncy this_world : loc)
    (best : option loc * score_t) : M (option loc * score_t) :=
  match n with
  | O => mret best
  | S n' =>
      setlist ← run_trial available guest_performances bouncy this_world;
      sl ← read_list setlist;
      vals ← read_songs sl;
      let score := calculate_setlist_score vals in
      best' ← (if score_gt (Fin score) best.2
               then c ← list_copy setlist; mret (Some c, Fin score)
               else mret best);
      trials_loop n' available guest_performances bouncy this_world best'
  end.

(** Lines 153-161: the four slices are new lists, and so is [groups]. *)
Definition split_groups (best_setlist : option loc) : M loc :=
  match best_setlist with
  | None => raise (TypeError "'NoneType' object is not subscriptable")
  | Some b =>
      items ← read_list b;
      g1 ← new_list (Py.slice items 0 5);
      g2 ← new_list (Py.slice items 5 10);
      g3 ← new_list (Py.slice items 10 15);
      g4 ← new_list (Py.slice items 15 21);
      new_list [g1; g2; g3; g4]
  end.

Definition generateSetlist (songs guest_performances : loc) (iterations : Z)
  : M loc :=
  refs ← read_list songs;
  bouncy ← find_song "Bouncy" refs;
  this_world ← find_song "This World" refs;
  match bouncy, this_world with
  | Some bouncy, Some this_world =>
      b ← read_song bouncy;
      t ← read_song this_world;
      avail ← available_songs refs b t;
      available ← new_list avail;
      best ← trials_loop (Z.to_nat iterations) available guest_performances
                bouncy this_world (None, NegInf);
      split_groups best.1
  | _, _ =>
      raise (ValueError "Bouncy and This World must be in the song list")
  end.

End Store.

End Store.

(** ** [parseCsv]

    Opening the file and splitting it into rows is the work of [open] and
    [csv.reader]; the function is modelled from the rows that the reader
    yields, each a list of fields.  [str.strip] removes the characters the
    interpreter counts as whitespace from both ends; which characters
    these are is the interpreter's table, here the parameter [is_space]. *)

Section ParseCsv.

Variable is_space : ascii -> bool.

Fixpoint lstrip (s : string) : string :=
  match s with
  | String c s' => if is_space c then lstrip s' else s
  | EmptyString => EmptyString
  end.

Fixpoint rstrip (s : string) : string :=
  match s with
  | String c s' =>
      match rstrip s' with
      | EmptyString => if is_space c then EmptyString else String c EmptyString
      | r => String c r
      end
  | EmptyString => EmptyString
  end.

(** [s.strip()] *)
Definition strip (s : string) : string := rstrip (lstrip s).

(** The body of [for row in reader], lines 20-35.  [row[0]] is there once
    the row has two fields. *)
Definition parse_row (row : list string) (acc : list Song * list Song)
  : list Song * list Song :=
  let '(songs, guest_performances) := acc in
  if Py.len row <? 2 then acc
  else
    match row !! 0%nat with
    | Some row0 =>
        let song_info := strip row0 in
        let performers :=
          filter (fun p => p <> EmptyString) (strip <$> Py.slice_from row 1) in
        let song_dict := mkSong song_info (list_to_set performers) in
        if decide (performers = ["Guest Performer"])
        then (songs, guest_performances ++ [song_dict])
        else (songs ++ [song_dict], guest_performances)
    | None => acc
    end.

Definition parseCsv (rows : list (list string)) : list Song * list Song :=
  Py.for_each rows parse_row ([], []).

(** A string that neither starts nor ends with whitespace. *)
Definition no_outer_space (s : string) : Prop :=
  (forall c t, s = String c t -> is_space c = false)
  /\ (forall t c, s = String.append t (String c EmptyString) ->
       is_space c = false).

End ParseCsv.

(** ** The statistics of [print_setlist]

    Lines 191-209: the positions at which every performer appears and the
    shortest gap between two appearances.  What the function prints is
    left out.  [performer_positions] is a dict from performer to the list
    of positions; the order in which a set yields its performers, and with
    it the order of the dict and of the list [gaps] before it is sorted,
    is not fixed by the language, so [gaps] is modelled as the finite map
    from a performer to its pair [(min_gap, num_songs)]. *)

(** [[song for group in groups for song in group]] *)
Definition all_songs (groups : list (list Song)) : list Song := concat groups.

(** The body of the inner loop; the dict is a [defaultdict(list)], so a
    performer seen for the first time starts from [[]]. *)
Definition record_position (pos : Z) (performer : string)
    (performer_positions : gmap string (list Z)) : gmap string (list Z) :=
  if decide (performer <> "Guest Performer")
  then <[performer :=
           default [] (performer_positions !! performer) ++ [pos]]>
         performer_positions
  else performer_positions.

Definition performer_positions (groups : list (list Song))
  : gmap string (list Z) :=
  Py.for_each (Py.enumerate (all_songs groups))
    (fun '(pos, song) performer_positions =>
       Py.for_each (elements (performers song)) (record_position pos)
         performer_positions)
    ∅.

(** [positions[i+1] - positions[i] for i in range(len(positions)-1)];
    both subscripts are in range. *)
Definition position_gaps (positions : list Z) : list Z :=
  i ← Py.range 0 (Py.len positions - 1);
  match positions !! Z.to_nat (i + 1), positions !! Z.to_nat i with
  | Some b, Some a => [b - a]
  | _, _ => []
  end.

(** What [gaps] gets for one performer, if anything. *)
Definition gap_entry (positions : list Z) : option (Z * Z) :=
  if 1 <? Py.len positions
  then min_gap ← Py.min (position_gaps positions);
       Some (min_gap, Py.len positions)
  else None.

Definition gaps (groups : list (list Song)) : gmap string (Z * Z) :=
  omap gap_entry (performer_positions groups).

(** The positions at which [performer] appears in a sequence, from the
    first to the last. *)
Definition positions_of (performer : string) (songs : list Song) : list Z :=
  omap (fun x : Z * Song =>
          if decide (performer ∈ performers x.2) then Some x.1 else None)
       (Py.enumerate songs).

(** ** [main]

    The rows are those of ['SetList.csv']; what [main] prints, itself and
    through [print_setlist], is left out, and the groups it hands to
    [print_setlist] are returned. *)

Definition main {RNG} (is_space : ascii -> bool)
    (random_perm : RNG -> nat -> list nat * RNG)
    (rows : list (list string)) (g : RNG) : (exn + list (list Song)) * RNG :=
  let '(songs, guest_performances) := parseCsv is_space rows in
  generateSetlist random_perm songs guest_performances 1000 g.

(** ** Items that pairwise share no performer *)

Fixpoint all_disjoint (l : list Song) : Prop :=
  match l with
  | [] => True
  | x :: l' =>
      Forall (fun y => performers x ## performers y) l' /\ all_disjoint l'
  end.

(** ** The score as the specification words it *)

(** The ordered position pairs [(i, j)] with [j] in [{i+1, i+2, i+3}] and
    [j] inside a sequence of length [n]. *)
Definition near_pairs (n : nat) : list (nat * nat) :=
  i ← seq 0 n;
  (fun j => (i, j)) <$> filter (fun j => (j < n)%nat) [i + 1; i + 2; i + 3]%nat.

(** [|performers(s[i]) ∩ performers(s[j])| * (4 - (j - i)) * 10] *)
Definition pair_penalty (s : list Song) (p : nat * nat) : Z :=
  match s !! p.1, s !! p.2 with
  | Some a, Some b =>
      Z.of_nat (size (performers a ∩ performers b))
      * (4 - (Z.of_nat p.2 - Z.of_nat p.1)) * 10
  | _, _ => 0
  end.

Definition Zsum (l : list Z) : Z := foldr Z.add 0 l.

Definition spec_score (s : list Song) : Z :=
  - Zsum (pair_penalty s <$> near_pairs (length s)).

(** ** The window score of a candidate position, as the specification words it *)

(** The score of [test_list[max(0, p-3) : min(length, p+4)]], where
    [test_list] is the sequence with the new item inserted at [p]. *)
Definition window_score (partial_setlist : list Song) (song : Song) (p : Z) : Z :=
  let test_list := Py.insert partial_setlist p song in
  calculate_setlist_score
    (Py.slice test_list (Z.max 0 (p - 3)) (Z.min (Py.len test_list) (p + 4))).

(** No two items at distance at most 3 share a performer. *)
Definition no_near_overlap (s : list Song) : Prop :=
  forall (i j : nat) a b,
    (i < j <= i + 3)%nat -> s !! i = Some a -> s !! j = Some b ->
    performers a ∩ performers b = ∅.

(** ** Substrings, as the specification words them *)

Definition has_substring (sub s : string) : Prop :=
  exists pre post, s = String.append pre (String.append sub post).

(** ** What a trial takes from the pools, and the groups *)

(** What [random.shuffle] promises: the indices are rearranged, none is
    lost or repeated. *)
Definition rearranges {RNG} (random_perm : RNG -> nat -> list nat * RNG) : Prop :=
  forall g n, (random_perm g n).1 ≡ₚ seq 0 n.

(** How many pool songs and how many guests a trial places. *)
Definition songs_taken (shuffled : list Song) : nat :=
  Nat.min (length shuffled) 19.

Definition guests_taken (shuffled guest_performances : list Song) : nat :=
  Nat.min (length guest_performances) (19 - songs_taken shuffled).

(** One pass of the guest loop, as the specification words it: the guest
    at ordinal [g] is put at position
    [floor(currentLength * (g + 1) / (guestCount + 1))] of the working
    sequence, and the ordinal advances by one. *)
Definition guest_step (guest_performances : list Song)
    (st : list Song * Z) : list Song * Z :=
  let '(setlist, g) := st in
  match guest_performances !! Z.to_nat g with
  | Some guest =>
      let p := Z.to_nat (Py.len setlist * (g + 1)
                         / (Py.len guest_performances + 1)) in
      (take p setlist ++ guest :: drop p setlist, g + 1)
  | None => st
  end.

(** The passes left from ordinal [g]: one for each unused guest, as long as
    the working sequence has fewer than 19 items. *)
Definition guest_passes (guest_performances setlist : list Song) (g : nat) : nat :=
  Nat.min (length guest_performances - g) (19 - length setlist).

(** The four groups as [take] and [drop]. *)
Definition four_slices (l : list Song) : list (list Song) :=
  [take 5 l; take 5 (drop 5 l); take 5 (drop 10 l); take 6 (drop 15 l)].

(** ** A scan for the first position of greatest value *)

(** The loop of [find_best_position_for_song], with the window score
    abstracted to [f]. *)
Definition scan_body (f : Z -> Z) (pos : Z) (best : score_t * Z) : score_t * Z :=
  let '(best_score, best_position) := best in
  if score_gt (Fin (f pos)) best_score
  then (Fin (f pos), pos)
  else (best_score, best_position).

Definition scan (f : Z -> Z) (start : Z) (n : nat) : score_t * Z :=
  Py.for_each (seqZ start (Z.of_nat n)) (scan_body f) (NegInf, start).

(** ** Assertions on the store *)

Module StoreSpec.
Import Obj.

Section Assertions.

Context {RNG : Type}.

(** The heap when the call starts; it holds the song dicts and the two
    lists of the caller. *)
Variable h0 : gmap loc obj.

(** [keeps m Q]: run from a heap that extends [h0], [m] ends in a heap
    that extends [h0], and a returned value satisfies [Q]. *)
Definition keeps {A} (m : M RNG A) (Q : A -> Prop) : Prop :=
  forall w, h0 ⊆ heap w ->
    h0 ⊆ heap (m w).2 /\ forall a, (m w).1 = inr a -> Q a.

(** A reference to an object made during the call. *)
Definition fresh_ref (l : loc) : Prop := h0 !! l = None.

Definition any {A} (a : A) : Prop := True.

(** The world in which the lists [L] have been made since the call
    started and the generator is in state [g]. *)
Definition mk (L : gmap loc (list loc)) (g : RNG) : world RNG :=
  World ((ListObj <$> L) ∪ h0) g.

(** The lists made since the call started are new objects. *)
Definition local (L : gmap loc (list loc)) : Prop :=
  forall l, is_Some (L !! l) -> h0 !! l = None.

(** [refs] are references to the song dicts [vals]. *)
Definition deref (refs : list loc) (vals : list Song) : Prop :=
  Forall2 (fun r s => h0 !! r = Some (DictObj s)) refs vals.

(** The reference found names the song the pure search finds. *)
Definition found (res : option loc) (s : option Song) : Prop :=
  match res, s with
  | Some r, Some s => h0 !! r = Some (DictObj s)
  | None, None => True
  | _, _ => False
  end.

(** The loop-carried [best_setlist] and [best_score] against the pure
    ones: the scores are equal and the reference names a list of the songs
    of the pure best sequence. *)
Definition best_rel (L : gmap loc (list loc)) (best : option loc * score_t)
    (st : opt_state RNG) : Prop :=
  best.2 = best_score st
  /\ match best.1, best_setlist st with
     | Some c, Some v => exists refs, L !! c = Some refs /\ deref refs v
     | None, None => True
     | _, _ => False
     end.

(** The list of groups on the heap and the pure groups. *)
Definition groups_rel (L : gmap loc (list loc)) (gl : loc)
    (groups : list (list Song)) : Prop :=
  exists grefs,
    L !! gl = Some grefs
    /\ Forall2 (fun gr grp => exists refs, L !! gr = Some refs /\ deref refs grp)
         grefs groups.

End Assertions.

End StoreSpec.

(** ** The trials of a run, one by one *)

Section Trials.

Context {RNG : Type} (random_perm : RNG -> nat -> list nat * RNG).
Context (songs guest_performances : list Song) (bouncy this_world : Song).

(** The sequence that trial number [k] (from 0) of a run builds: the
    generator is in the state the first [k] trials left. *)
Definition trial_built (g : RNG) (k : nat) : list Song :=
  (run_trial random_perm (available_songs songs bouncy this_world)
     guest_performances bouncy this_world
     (rng (optimize random_perm songs guest_performances bouncy this_world
             (Z.of_nat k) g))).1.

End Trials.

(** ** Small inputs *)

Module Examples.
Definition A := mkSong "a" {[ "x"%string; "y"%string ]}.
Definition B := mkSong "b" {[ "y"%string; "z"%string ]}.
Definition C := mkSong "c" {[ "x"%string; "y"%string; "z"%string ]}.
Definition bouncy := mkSong "Bouncy (joint)" {[ "x"%string ]}.
Definition this_world := mkSong "01 This World" {[ "z"%string ]}.
Definition guest1 := mkSong "g1" {[ "Guest Performer"%string ]}.
Definition X1 := mkSong "x1" {[ "p"%string ]}.
Definition X2 := mkSong "x2" {[ "p"%string ]}.
(** A heap with four songs, a guest and the two lists of a call. *)
Definition heap0 : gmap Obj.loc Obj.obj :=
  list_to_map
    [(0%nat, Obj.DictObj A); (1%nat, Obj.DictObj bouncy);
     (2%nat, Obj.DictObj B); (3%nat, Obj.DictObj this_world);
     (4%nat, Obj.DictObj guest1);
     (10%nat, Obj.ListObj [0; 1; 2; 3]%nat);
     (11%nat, Obj.ListObj [4%nat])].
(** A heap whose list of songs has no "Bouncy". *)
Definition heap1 : gmap Obj.loc Obj.obj :=
  list_to_map
    [(0%nat, Obj.DictObj A); (2%nat, Obj.DictObj B);
     (3%nat, Obj.DictObj this_world); (4%nat, Obj.DictObj guest1);
     (10%nat, Obj.ListObj [0; 2; 3]%nat);
     (11%nat, Obj.ListObj [4%nat])].
(** The whitespace of [str.strip] among the ASCII characters: tab, line
    feed, vertical tab, form feed, carriage return, the four separators
    and the space. *)
Definition ascii_space (c : ascii) : bool :=
  let n := nat_of_ascii c in
  ((9 <=? n)%nat && (n <=? 13)%nat) || ((28 <=? n)%nat && (n <=? 32)%nat).
(** The rows of a small file: one row is too short, one is a guest
    performance and one has only blank performer fields. *)
Definition rows5 : list (list string) :=
  [["Bouncy "; " Ann"; "Bob "]; ["Solo"]; ["Interlude"; "Guest Performer"];
   ["Quiet"; "  "; ""]; [" This World"; "Ann"]].
(** Songs and anchors of which no two share a performer. *)
Definition apart : list Song :=
  [mkSong "one" {[ "a"%string ]}; bouncy; mkSong "two" {[ "b"%string ]};
   this_world].
(** [n] songs named by one letter each, with four performers in turn. *)
Definition pool (n : nat) : list Song :=
  (fun i =>
     mkSong (String (ascii_of_nat (97 + i)) EmptyString)
            {[ String (ascii_of_nat (65 + i `mod` 4)) EmptyString ]})
  <$> seq 0 n.
(** A full input: 19 songs and the two anchors among them. *)
Definition songs21 : list Song :=
  take 7 (pool 19) ++ [bouncy] ++ drop 7 (pool 19) ++ [this_world].
(** A generator that keeps the order on its first draw and reverses on
    the later ones; its state counts the draws. *)
Definition keep_then_reverse (g n : nat) : list nat * nat :=
  (match g with O => seq 0 n | S _ => rev (seq 0 n) end, S g).
(** A generator that always leaves the order as it is. *)
Definition keep_order (g : unit) (n : nat) : list nat * unit := (seq 0 n, g).
(** A generator that always reverses. *)
Definition reversing (g : unit) (n : nat) : list nat * unit := (rev (seq 0 n), g).
End Examples.

(** * Properties *)

(** ** Python list operations *)

Module PyFacts.
Import Py.

Lemma len_nonneg {A} (l : list A) : 0 <= len l.
Proof. unfold len. lia. Qed.

Lemma norm_range n i : 0 <= n -> 0 <= norm n i <= n.
Proof. unfold norm. intros Hn. destruct (Z.ltb_spec i 0); lia. Qed.

Lemma norm_in_range n i : 0 <= i <= n -> norm n i = i.
Proof. unfold norm. intros Hi. destruct (Z.ltb_spec i 0); lia. Qed.

Lemma insert_slices {A} (l : list A) pos x :
  slice_to l pos ++ [x] ++ slice_from l pos = insert l pos x.
Proof. reflexivity. Qed.

Lemma insert_perm {A} (l : list A) pos x : insert l pos x ≡ₚ x :: l.
Proof.
  unfold insert. rewrite <- Permutation_middle. constructor.
  rewrite take_drop. reflexivity.
Qed.

Lemma insert_length {A} (l : list A) pos x :
  length (insert l pos x) = S (length l).
Proof. rewrite (Permutation_length (insert_perm l pos x)). reflexivity. Qed.

Lemma insert_len {A} (l : list A) pos x : len (insert l pos x) = len l + 1.
Proof. unfold len. rewrite insert_length. lia. Qed.

(** The index rules on small lists, as Python evaluates them. *)
Example insert_negative : insert [1; 2; 3]%nat (-1) 9%nat = [1; 2; 9; 3]%nat.
Proof. reflexivity. Qed.

Example insert_far_left : insert [1; 2; 3]%nat (-7) 9%nat = [9; 1; 2; 3]%nat.
Proof. reflexivity. Qed.

Example insert_far_right : insert [1; 2; 3]%nat 7 9%nat = [1; 2; 3; 9]%nat.
Proof. reflexivity. Qed.

Example slice_negative_end : slice [0; 1; 2; 3; 4]%nat 1 (-1) = [1; 2; 3]%nat.
Proof. reflexivity. Qed.

Example slice_clipped : slice [0; 1; 2; 3; 4]%nat 3 21 = [3; 4]%nat.
Proof. reflexivity. Qed.

Example slice_past_end : slice [0; 1; 2; 3; 4]%nat 10 15 = @nil nat.
Proof. reflexivity. Qed.

Lemma range_nat (n : nat) : range 0 (Z.of_nat n) = Z.of_nat <$> seq 0 n.
Proof.
  unfold range, seqZ. rewrite Z.sub_0_r, Nat2Z.id.
  apply list_fmap_ext. intros; lia.
Qed.

Lemma for_each_app {A S} (xs ys : list A) (body : A -> S -> S) acc :
  for_each (xs ++ ys) body acc = for_each ys body (for_each xs body acc).
Proof. unfold for_each. apply fold_left_app. Qed.

End PyFacts.

(** ** The score *)

Lemma Zsum_cons x l : Zsum (x :: l) = x + Zsum l.
Proof. reflexivity. Qed.

Lemma Zsum_app l1 l2 : Zsum (l1 ++ l2) = Zsum l1 + Zsum l2.
Proof.
  induction l1 as [|x l1 IH]; [reflexivity|].
  rewrite <- app_comm_cons, !Zsum_cons, IH. lia.
Qed.

Lemma Zsum_bind {A B} (f : A -> list B) (w : B -> Z) (l : list A) :
  Zsum (w <$> (l ≫= f)) = Zsum ((fun a => Zsum (w <$> f a)) <$> l).
Proof.
  induction l as [|a l IH]; [reflexivity|].
  rewrite bind_cons, fmap_app, Zsum_app, IH. reflexivity.
Qed.

Lemma Zsum_nonneg l : Forall (fun z => 0 <= z) l -> 0 <= Zsum l.
Proof.
  induction 1 as [|x l Hx Hl IH]; [reflexivity|]. rewrite Zsum_cons. lia.
Qed.

Lemma Zsum_zero l :
  Forall (fun z => 0 <= z) l -> Zsum l = 0 -> Forall (fun z => z = 0) l.
Proof.
  induction 1 as [|x l Hx Hl IH]; [constructor|].
  rewrite Zsum_cons. intros Hs.
  pose proof (Zsum_nonneg l Hl). constructor; [lia|]. apply IH. lia.
Qed.

(** A loop that only subtracts penalties subtracts their sum. *)
Lemma for_each_sub {A} (pen : A -> Z) (xs : list A) acc :
  Py.for_each xs (fun x s => s - pen x) acc = acc - Zsum (pen <$> xs).
Proof.
  unfold Py.for_each. revert acc.
  induction xs as [|x xs IH]; intros acc; [cbn; lia|].
  rewrite fmap_cons, Zsum_cons. cbn [fold_left]. rewrite IH. lia.
Qed.

Lemma score_pair_sub s (i j : nat) score :
  score_pair s (Z.of_nat i) (Z.of_nat j) score = score - pair_penalty s (i, j).
Proof.
  unfold score_pair, pair_penalty, calculate_overlap. cbn [fst snd].
  rewrite !Nat2Z.id.
  destruct (s !! i), (s !! j); lia.
Qed.

(** The bounds of the inner loop pick the [j] of [near_pairs]. *)
Lemma inner_range (n i : nat) :
  Py.range (Z.of_nat i + 1) (Z.min (Z.of_nat i + 4) (Z.of_nat n))
  = Z.of_nat <$> filter (fun j => (j < n)%nat) [i + 1; i + 2; i + 3]%nat.
Proof.
  unfold Py.range.
  rewrite !filter_cons, filter_nil.
  repeat case_decide; try (exfalso; lia).
  - replace (Z.min _ _ - _) with 3 by lia.
    unfold seqZ. change (Z.to_nat 3) with 3%nat.
    cbn [seq fmap list_fmap]. repeat f_equal; lia.
  - replace (Z.min _ _ - _) with 2 by lia.
    unfold seqZ. change (Z.to_nat 2) with 2%nat.
    cbn [seq fmap list_fmap]. repeat f_equal; lia.
  - replace (Z.min _ _ - _) with 1 by lia.
    unfold seqZ. change (Z.to_nat 1) with 1%nat.
    cbn [seq fmap list_fmap]. repeat f_equal; lia.
  - rewrite seqZ_nil by lia. reflexivity.
Qed.

Lemma score_eq_spec (s : list Song) : calculate_setlist_score s = spec_score s.
Proof.
  unfold calculate_setlist_score, spec_score, near_pairs, Py.len.
  rewrite Zsum_bind, PyFacts.range_nat.
  set (inner := fun i : nat =>
    Zsum (pair_penalty s <$>
      ((fun j => (i, j)) <$> filter (fun j => (j < length s)%nat)
                               [i + 1; i + 2; i + 3]%nat))).
  transitivity (Py.for_each (seq 0 (length s)) (fun i score => score - inner i) 0).
  - generalize (seq 0 (length s)) 0. intros l. unfold Py.for_each.
    induction l as [|i l IH]; intros acc; [reflexivity|].
    rewrite fmap_cons. cbn [fold_left]. rewrite IH. f_equal.
    rewrite inner_range.
    transitivity (Py.for_each (filter (fun j => (j < length s)%nat)
                                 [i + 1; i + 2; i + 3]%nat)
                    (fun j score => score - pair_penalty s (i, j)) acc).
    + generalize (filter (fun j => (j < length s)%nat) [i + 1; i + 2; i + 3]%nat).
      intros js. revert acc. unfold Py.for_each.
      induction js as [|j js IHj]; intros acc; [reflexivity|].
      rewrite fmap_cons. cbn [fold_left]. rewrite score_pair_sub. apply IHj.
    + rewrite for_each_sub. unfold inner. rewrite <- list_fmap_compose.
      reflexivity.
  - rewrite for_each_sub. lia.
Qed.

Lemma near_pairs_spec (n i j : nat) :
  (i, j) ∈ near_pairs n <-> (i < j <= i + 3 /\ j < n)%nat.
Proof.
  unfold near_pairs. rewrite list_elem_of_bind. split.
  - intros (i' & Hj & Hi). apply list_elem_of_fmap in Hj as (j' & Heq & Hj).
    inversion Heq; subst i' j'. clear Heq.
    apply list_elem_of_filter in Hj as [Hlt Hj].
    rewrite !elem_of_cons, elem_of_nil in Hj. lia.
  - intros [Hij Hn]. exists i. split.
    + apply list_elem_of_fmap. exists j. split; [reflexivity|].
      apply list_elem_of_filter. split; [exact Hn|].
      rewrite !elem_of_cons, elem_of_nil. lia.
    + apply elem_of_seq. lia.
Qed.

Lemma pair_penalty_lookup (s : list Song) (i j : nat) a b :
  s !! i = Some a -> s !! j = Some b ->
  pair_penalty s (i, j)
  = Z.of_nat (size (performers a ∩ performers b))
    * (4 - (Z.of_nat j - Z.of_nat i)) * 10.
Proof. unfold pair_penalty. cbn [fst snd]. intros -> ->. reflexivity. Qed.

Lemma pair_penalty_nonneg (s : list Song) p :
  p ∈ near_pairs (length s) -> 0 <= pair_penalty s p.
Proof.
  destruct p as [i j]. rewrite near_pairs_spec. intros [Hij Hn].
  unfold pair_penalty. cbn [fst snd].
  destruct (s !! i), (s !! j); nia.
Qed.

Lemma penalties_nonneg (s : list Song) :
  Forall (fun z => 0 <= z) (pair_penalty s <$> near_pairs (length s)).
Proof.
  apply Forall_fmap, Forall_forall. intros p Hp.
  apply pair_penalty_nonneg, Hp.
Qed.

(** ** The position scan *)

Section Scan.

Variable f : Z -> Z.

Lemma scan_S start n :
  scan f start (S n) = scan_body f (start + Z.of_nat n) (scan f start n).
Proof.
  unfold scan. rewrite Nat2Z.inj_succ, <- Z.add_1_r.
  rewrite seqZ_app by lia. rewrite PyFacts.for_each_app.
  reflexivity.
Qed.

Lemma scan_inv start n :
  let r := scan f start (S n) in
  r.1 = Fin (f r.2)
  /\ start <= r.2 < start + Z.of_nat (S n)
  /\ (forall q, start <= q < start + Z.of_nat (S n) -> f q <= f r.2)
  /\ (forall q, start <= q < r.2 -> f q < f r.2).
Proof.
  induction n as [|n IH].
  - rewrite scan_S. unfold scan. cbn [Z.of_nat seqZ]. 
    rewrite seqZ_nil by lia. cbn. rewrite Z.add_0_r.
    repeat split; try lia. intros q Hq. assert (q = start) as -> by lia. lia.
  - rewrite scan_S. cbv zeta in IH.
    destruct (scan f start (S n)) as [bs bp]. cbn [fst snd] in IH.
    destruct IH as (-> & Hrange & Hmax & Hfirst).
    unfold scan_body. cbn [score_gt].
    destruct (Z.ltb_spec (f bp) (f (start + Z.of_nat (S n)))) as [Hlt|Hge];
      cbn [fst snd].
    + repeat split; try lia.
      * intros q Hq.
        destruct (Z.eq_dec q (start + Z.of_nat (S n))) as [->|Hne]; [lia|].
        specialize (Hmax q). lia.
      * intros q Hq. specialize (Hmax q). lia.
    + repeat split; try lia.
      * intros q Hq.
        destruct (Z.eq_dec q (start + Z.of_nat (S n))) as [->|Hne]; [lia|].
        specialize (Hmax q). lia.
      * apply Hfirst.
Qed.

End Scan.

Lemma find_best_position_scan partial_setlist song start_idx end_idx :
  find_best_position_for_song partial_setlist song start_idx end_idx
  = (scan (window_score partial_setlist song) start_idx
       (Z.to_nat (end_idx + 1 - start_idx))).2.
Proof.
  unfold find_best_position_for_song, scan, Py.range.
  destruct (Z.le_gt_cases start_idx (end_idx + 1)) as [Hle|Hgt].
  - rewrite Z2Nat.id by lia. reflexivity.
  - rewrite seqZ_nil by lia.
    replace (Z.to_nat _) with 0%nat by lia. reflexivity.
Qed.

(** ** The builder *)

Lemma place_songs_spec (remaining setlist : list Song) :
  let k := Nat.min (length remaining) (19 - length setlist) in
  (place_songs setlist remaining).1 ≡ₚ setlist ++ take k remaining
  /\ (place_songs setlist remaining).2 = drop k remaining.
Proof.
  revert setlist. induction remaining as [|song rest IH]; intros setlist k.
  - subst k. cbn. rewrite app_nil_r. split; reflexivity.
  - cbn [place_songs]. unfold total_needed, Py.len.
    destruct (Z.ltb_spec (Z.of_nat (length setlist)) 19) as [Hlt|Hge].
    + assert (Hk : k = S (Nat.min (length rest) (19 - S (length setlist)))).
      { subst k. cbn [length]. lia. }
      rewrite Hk. cbn [take drop].
      destruct (Z.eqb_spec (Z.of_nat (length setlist)) 0) as [Hz|Hnz].
      * specialize (IH (setlist ++ [song])).
        rewrite length_app, Nat.add_1_r in IH. cbv zeta in IH.
        destruct IH as [IH1 IH2]. split; [|exact IH2].
        rewrite IH1, <- app_assoc. reflexivity.
      * set (pos := find_best_position_for_song _ _ _ _).
        specialize (IH (Py.insert setlist pos song)).
        rewrite PyFacts.insert_length in IH. cbv zeta in IH.
        destruct IH as [IH1 IH2]. split; [|exact IH2].
        rewrite IH1, PyFacts.insert_perm.
        rewrite <- Permutation_middle. reflexivity.
    + assert (Hk : k = 0%nat) by (subst k; lia).
      rewrite Hk. cbn. rewrite app_nil_r. split; reflexivity.
Qed.

Lemma place_guests_spec fuel (guest_performances setlist : list Song) (g : nat) :
  (length guest_performances - g <= fuel)%nat ->
  let m := Nat.min (length guest_performances - g) (19 - length setlist) in
  (place_guests fuel guest_performances setlist (Z.of_nat g)).1
    ≡ₚ setlist ++ take m (drop g guest_performances)
  /\ (place_guests fuel guest_performances setlist (Z.of_nat g)).2
     = Z.of_nat (g + m).
Proof.
  revert setlist g. induction fuel as [|fuel IH]; intros setlist g Hfuel m.
  - assert (Hm : m = 0%nat) by (subst m; lia).
    rewrite Hm. cbn. rewrite app_nil_r, Nat.add_0_r. split; reflexivity.
  - cbn [place_guests]. unfold total_needed, Py.len.
    destruct (Z.ltb_spec (Z.of_nat (length setlist)) 19) as [Hlt|Hge];
      cbn [andb].
    + destruct (Z.ltb_spec (Z.of_nat g) (Z.of_nat (length guest_performances)))
        as [Hg|Hg].
      * rewrite Nat2Z.id.
        destruct (lookup_lt_is_Some_2 guest_performances g) as [guest Hguest];
          [lia|].
        rewrite Hguest.
        set (ideal_pos := _ / _).
        replace (Z.of_nat g + 1) with (Z.of_nat (S g)) by lia.
        specialize (IH (Py.insert setlist ideal_pos guest) (S g)).
        rewrite PyFacts.insert_length in IH. cbv zeta in IH.
        destruct IH as [IH1 IH2]; [lia|].
        assert (Hm : m = S (Nat.min (length guest_performances - S g)
                                     (19 - S (length setlist)))).
        { subst m. lia. }
        rewrite Hm. split.
        -- rewrite IH1, PyFacts.insert_perm.
           rewrite (drop_S _ _ _ Hguest). cbn [take].
           rewrite <- Permutation_middle. reflexivity.
        -- rewrite IH2. lia.
      * assert (Hm : m = 0%nat) by (subst m; lia).
        rewrite Hm. cbn. rewrite app_nil_r, Nat.add_0_r. split; reflexivity.
    + assert (Hm : m = 0%nat) by (subst m; lia).
      rewrite Hm. cbn. rewrite app_nil_r, Nat.add_0_r. split; reflexivity.
Qed.

(** With the fuel that [build_setlist] gives it, the guest loop stops
    because its condition is false, not because the fuel ran out. *)
Lemma place_guests_done (guest_performances setlist : list Song) :
  let r := place_guests (length guest_performances) guest_performances
             setlist 0 in
  (Py.len r.1 <? total_needed) && (r.2 <? Py.len guest_performances) = false.
Proof.
  cbv zeta.
  pose proof (place_guests_spec (length guest_performances) guest_performances
                setlist 0) as H.
  cbv zeta in H. change (Z.of_nat 0) with 0 in H.
  destruct H as [Hperm Hidx]; [lia|].
  rewrite Hidx. unfold Py.len, total_needed.
  rewrite (Permutation_length Hperm), length_app, length_take, length_drop.
  apply andb_false_iff.
  destruct (Nat.le_gt_cases (length guest_performances - 0)
                            (19 - length setlist)).
  - right. apply Z.ltb_ge. lia.
  - left. apply Z.ltb_ge. lia.
Qed.

Lemma build_setlist_spec (shuffled guest_performances : list Song)
    (bouncy this_world : Song) :
  exists body,
    build_setlist shuffled guest_performances bouncy this_world
    = body ++ [bouncy; this_world]
    /\ body ≡ₚ take (songs_taken shuffled) shuffled
              ++ take (guests_taken shuffled guest_performances)
                   guest_performances.
Proof.
  unfold build_setlist.
  pose proof (place_songs_spec shuffled []) as Hs. cbv zeta in Hs.
  destruct (place_songs [] shuffled) as [setlist rest].
  cbn [fst snd length] in Hs. destruct Hs as [Hs _].
  rewrite Nat.sub_0_r, app_nil_l in Hs.
  pose proof (place_guests_spec (length guest_performances)
                guest_performances setlist 0) as Hg.
  cbv zeta in Hg. change (Z.of_nat 0) with 0 in Hg.
  destruct (place_guests _ _ setlist 0) as [setlist' idx].
  cbn [fst snd] in Hg. destruct Hg as [Hg _]; [lia|].
  exists setlist'. split; [reflexivity|].
  assert (Hlen : length setlist = songs_taken shuffled).
  { rewrite (Permutation_length Hs), length_take. unfold songs_taken. lia. }
  rewrite Hlen, Nat.sub_0_r, drop_0 in Hg.
  etransitivity; [exact Hg|].
  apply Permutation_app; [exact Hs|reflexivity].
Qed.

(** ** Substring test *)

Lemma append_nil (t : string) : String.append EmptyString t = t.
Proof. reflexivity. Qed.

Lemma append_cons (a : ascii) (s t : string) :
  String.append (String a s) t = String a (String.append s t).
Proof. reflexivity. Qed.

Lemma prefix_spec (p s : string) :
  String.prefix p s = true <-> exists post, s = String.append p post.
Proof.
  revert s. induction p as [|a p IH]; intros s.
  - split; [|destruct s; reflexivity]. intros _. exists s. reflexivity.
  - destruct s as [|b s]; cbn [String.prefix].
    + split; [discriminate|]. intros [post H].
      rewrite append_cons in H. discriminate.
    + destruct (Ascii.ascii_dec a b) as [->|Hne].
      * rewrite IH. split; intros [post H]; exists post;
          rewrite append_cons in *; congruence.
      * split; [discriminate|]. intros [post H].
        rewrite append_cons in H. congruence.
Qed.

Lemma str_contains_spec (sub s : string) :
  str_contains sub s = true <-> has_substring sub s.
Proof.
  unfold has_substring. induction s as [|c s IH].
  - cbn [str_contains]. rewrite orb_false_r, prefix_spec. split.
    + intros [post H]. exists EmptyString, post. exact H.
    + intros (pre & post & H). destruct pre as [|c pre].
      * exists post. exact H.
      * rewrite append_cons in H. discriminate.
  - cbn [str_contains]. rewrite orb_true_iff, prefix_spec, IH. split.
    + intros [[post H]|(pre & post & H)].
      * exists EmptyString, post. exact H.
      * exists (String c pre), post. rewrite append_cons. congruence.
    + intros (pre & post & H). destruct pre as [|c' pre].
      * left. exists post. exact H.
      * right. exists pre, post. rewrite append_cons in H. congruence.
Qed.

Lemma find_song_none (sub : string) (songs : list Song) :
  (forall s, s ∈ songs -> ~ has_substring sub (name s)) ->
  find_song sub songs = None.
Proof.
  intros Hno. unfold find_song.
  destruct (List.find _ songs) as [s|] eqn:Hfind; [|reflexivity].
  apply find_some in Hfind as [Hin Hsub].
  apply list_elem_of_In in Hin. apply str_contains_spec in Hsub.
  destruct (Hno s Hin Hsub).
Qed.

Lemma find_song_some (sub : string) (songs : list Song) s :
  find_song sub songs = Some s -> s ∈ songs /\ has_substring sub (name s).
Proof.
  unfold find_song. intros Hfind.
  apply find_some in Hfind as [Hin Hsub].
  split; [apply list_elem_of_In, Hin|apply str_contains_spec, Hsub].
Qed.

(** ** The generator and the shuffle *)

Lemma omap_lookup_seq {A} (pre x : list A) :
  omap (fun i => (pre ++ x) !! i) (seq (length pre) (length x)) = x.
Proof.
  revert pre. induction x as [|a x IH]; intros pre; [reflexivity|].
  cbn [length seq omap list_omap].
  rewrite list_lookup_middle by reflexivity.
  f_equal. specialize (IH (pre ++ [a])).
  rewrite <- app_assoc, length_app, Nat.add_1_r in IH. exact IH.
Qed.

Section Generator.

Context {RNG : Type} (random_perm : RNG -> nat -> list nat * RNG).

Lemma shuffle_perm {A} (g : RNG) (x : list A) :
  rearranges random_perm -> (shuffle random_perm g x).1 ≡ₚ x.
Proof.
  intros Hperm. unfold shuffle. specialize (Hperm g (length x)).
  destruct (random_perm g (length x)) as [idx g']. cbn [fst] in *.
  rewrite Hperm. pose proof (omap_lookup_seq [] x) as Hx.
  cbn [app length] in Hx. rewrite Hx. reflexivity.
Qed.

End Generator.

Lemma keep_order_rearranges : rearranges Examples.keep_order.
Proof. intros g n. reflexivity. Qed.

(** ** The optimizer *)

Lemma score_le_refl a : score_le a a.
Proof. destruct a; cbn; [exact I|lia]. Qed.

Lemma score_le_trans a b c : score_le a b -> score_le b c -> score_le a c.
Proof. destruct a, b, c; cbn; try tauto; lia. Qed.

Lemma score_gt_le a b : score_gt a b = true -> score_le b a.
Proof. destruct a, b; cbn; try discriminate; try tauto. lia. Qed.

Lemma score_gt_irrefl a : score_gt a a = false.
Proof. destruct a; cbn; [reflexivity|]. lia. Qed.

Section OptimizerFacts.

Context {RNG : Type} (random_perm : RNG -> nat -> list nat * RNG).
Context (available guest_performances : list Song) (bouncy this_world : Song).

Let step : opt_state RNG -> opt_state RNG :=
  trial_step random_perm available guest_performances bouncy this_world.

Lemma trials_loop_S (n : nat) (f : opt_state RNG -> opt_state RNG) st :
  trials_loop (S n) f st = f (trials_loop n f st).
Proof.
  revert st. induction n as [|n IH]; intros st; [reflexivity|].
  change (trials_loop (S (S n)) f st) with (trials_loop (S n) f (f st)).
  rewrite IH. reflexivity.
Qed.

Lemma trial_step_cases st :
  let trial :=
    run_trial random_perm available guest_performances bouncy this_world
      (rng st) in
  let score := Fin (calculate_setlist_score trial.1) in
  rng (step st) = trial.2
  /\ (if score_gt score (best_score st)
      then best_setlist (step st) = Some trial.1
           /\ best_score (step st) = score
      else best_setlist (step st) = best_setlist st
           /\ best_score (step st) = best_score st).
Proof.
  cbv zeta. unfold step, trial_step.
  destruct (run_trial _ _ _ _ _ _) as [setlist g']. cbn [fst snd].
  destruct (score_gt _ _); cbn; auto.
Qed.

Lemma trial_step_mono st : score_le (best_score st) (best_score (step st)).
Proof.
  pose proof (trial_step_cases st) as [_ H]. cbv zeta in H.
  destruct (score_gt _ _) eqn:Hgt.
  - destruct H as [_ ->]. apply score_gt_le, Hgt.
  - destruct H as [_ ->]. apply score_le_refl.
Qed.

Lemma trials_loop_mono (n m : nat) st :
  (n <= m)%nat ->
  score_le (best_score (trials_loop n step st))
           (best_score (trials_loop m step st)).
Proof.
  induction 1 as [|m Hle IH]; [apply score_le_refl|].
  rewrite trials_loop_S.
  eapply score_le_trans; [exact IH|apply trial_step_mono].
Qed.

(** Once a trial has run there is a best sequence, it is one that some
    trial built, and its score is the recorded one. *)
Lemma trials_loop_best (n : nat) g :
  exists g0,
    let built :=
      (run_trial random_perm available guest_performances bouncy this_world
         g0).1 in
    best_setlist (trials_loop (S n) step (OptState None NegInf g)) = Some built
    /\ best_score (trials_loop (S n) step (OptState None NegInf g))
       = Fin (calculate_setlist_score built).
Proof.
  induction n as [|n IH].
  - exists g. cbn [trials_loop].
    pose proof (trial_step_cases (OptState None NegInf g)) as [_ H].
    cbv zeta in H. cbn [best_score rng score_gt] in H. exact H.
  - destruct IH as (g0 & IH1 & IH2). rewrite trials_loop_S.
    set (st := trials_loop (S n) step _) in *.
    pose proof (trial_step_cases st) as [_ H]. cbv zeta in H.
    destruct (score_gt _ _).
    + exists (rng st). exact H.
    + exists g0. destruct H as [-> ->]. split; assumption.
Qed.

End OptimizerFacts.

(** ** The store: what a call leaves untouched *)

Module StoreFacts.
Import Obj.

Section Frame.

Context {RNG : Type} (random_perm : RNG -> nat -> list nat * RNG).

#[local] Existing Instance M_ret.
#[local] Existing Instance M_bind.

(** The heap when the call starts. *)
Variable h0 : gmap loc obj.

#[local] Abbreviation keeps m Q := (StoreSpec.keeps (RNG:=RNG) h0 m Q).
#[local] Abbreviation fresh_ref := (StoreSpec.fresh_ref h0).
#[local] Abbreviation any := StoreSpec.any.

Lemma keeps_ret {A} (a : A) (Q : A -> Prop) : Q a -> keeps (mret a) Q.
Proof. intros HQ w Hw. split; [exact Hw|]. intros a' [= <-]. exact HQ. Qed.

Lemma keeps_raise {A} (e : exn) (Q : A -> Prop) : keeps (raise e) Q.
Proof. intros w Hw. split; [exact Hw|]. intros a' [=]. Qed.

Lemma keeps_bind {A B} (m : M RNG A) (k : A -> M RNG B) P Q :
  keeps m P -> (forall a, P a -> keeps (k a) Q) -> keeps (m ≫= k) Q.
Proof.
  intros Hm Hk w Hw. unfold mbind, M_bind.
  specialize (Hm w Hw). destruct (m w) as [[e|a] w']; cbn [fst snd] in *.
  - split; [apply Hm|]. intros b [=].
  - destruct Hm as [Hw' HP]. apply (Hk a (HP a eq_refl) w' Hw').
Qed.

Lemma keeps_weaken {A} (m : M RNG A) (P Q : A -> Prop) :
  keeps m P -> (forall a, P a -> Q a) -> keeps m Q.
Proof.
  intros Hm HPQ w Hw. destruct (Hm w Hw) as [Hw' HP].
  split; [exact Hw'|]. intros a Ha. apply HPQ, HP, Ha.
Qed.

Lemma keeps_new_list items : keeps (new_list items) fresh_ref.
Proof.
  intros w Hw. unfold new_list. cbn [fst snd heap].
  assert (Hfresh : h0 !! fresh (dom (heap w)) = None).
  { apply not_elem_of_dom. intros Hin.
    apply (is_fresh (dom (heap w))).
    eapply subseteq_dom in Hw. apply Hw, Hin. }
  split.
  - apply insert_subseteq_r; assumption.
  - intros a [= <-]. exact Hfresh.
Qed.

Lemma keeps_read_list l : keeps (read_list l) any.
Proof.
  intros w Hw. unfold read_list.
  destruct (heap w !! l) as [[items|s]|]; cbn; split; done.
Qed.

Lemma keeps_read_song r : keeps (read_song r) any.
Proof.
  intros w Hw. unfold read_song.
  destruct (heap w !! r) as [[items|s]|]; cbn; split; done.
Qed.

Lemma keeps_write_list l items :
  fresh_ref l -> keeps (write_list l items) any.
Proof.
  intros Hl w Hw. unfold write_list. cbn [fst snd heap]. split; [|done].
  apply insert_subseteq_r; assumption.
Qed.

Lemma keeps_draw_shuffle items : keeps (draw_shuffle random_perm items) any.
Proof.
  intros w Hw. unfold draw_shuffle.
  destruct (shuffle random_perm (gen w) items) as [items' g'].
  cbn. split; done.
Qed.

Lemma keeps_read_songs refs : keeps (read_songs refs) any.
Proof.
  induction refs as [|r refs IH]; cbn [read_songs].
  - apply keeps_ret. exact I.
  - eapply keeps_bind; [apply keeps_read_song|]. intros s _.
    eapply keeps_bind; [apply IH|]. intros ss _.
    apply keeps_ret. exact I.
Qed.

Lemma keeps_list_copy l : keeps (list_copy l) fresh_ref.
Proof.
  unfold list_copy.
  eapply keeps_bind; [apply keeps_read_list|]. intros items _.
  apply keeps_new_list.
Qed.

Lemma keeps_list_pop0 l : fresh_ref l -> keeps (list_pop0 l) any.
Proof.
  intros Hl. unfold list_pop0.
  eapply keeps_bind; [apply keeps_read_list|]. intros [|x rest] _.
  - apply keeps_raise.
  - eapply keeps_bind; [apply keeps_write_list, Hl|]. intros _ _.
    apply keeps_ret. exact I.
Qed.

Lemma keeps_list_append l x : fresh_ref l -> keeps (list_append l x) any.
Proof.
  intros Hl. unfold list_append.
  eapply keeps_bind; [apply keeps_read_list|]. intros items _.
  apply keeps_write_list, Hl.
Qed.

Lemma keeps_list_insert l pos x :
  fresh_ref l -> keeps (list_insert l pos x) any.
Proof.
  intros Hl. unfold list_insert.
  eapply keeps_bind; [apply keeps_read_list|]. intros items _.
  apply keeps_write_list, Hl.
Qed.

Lemma keeps_list_extend l xs : fresh_ref l -> keeps (list_extend l xs) any.
Proof.
  intros Hl. unfold list_extend.
  eapply keeps_bind; [apply keeps_read_list|]. intros items _.
  apply keeps_write_list, Hl.
Qed.

Lemma keeps_random_shuffle l :
  fresh_ref l -> keeps (random_shuffle random_perm l) any.
Proof.
  intros Hl. unfold random_shuffle.
  eapply keeps_bind; [apply keeps_read_list|]. intros items _.
  eapply keeps_bind; [apply keeps_draw_shuffle|]. intros items' _.
  apply keeps_write_list, Hl.
Qed.

Lemma keeps_find_song sub refs : keeps (Store.find_song sub refs) any.
Proof.
  induction refs as [|r refs IH]; cbn [Store.find_song].
  - apply keeps_ret. exact I.
  - eapply keeps_bind; [apply keeps_read_song|]. intros s _.
    destruct (str_contains sub (name s)); [|exact IH].
    apply keeps_ret. exact I.
Qed.

Lemma keeps_available_songs refs b t : keeps (Store.available_songs refs b t) any.
Proof.
  induction refs as [|r refs IH]; cbn [Store.available_songs].
  - apply keeps_ret. exact I.
  - eapply keeps_bind; [apply keeps_read_song|]. intros s _.
    eapply keeps_bind; [apply IH|]. intros keep _.
    apply keeps_ret. exact I.
Qed.

Lemma keeps_place_songs fuel setlist remaining :
  fresh_ref setlist -> fresh_ref remaining ->
  keeps (Store.place_songs fuel setlist remaining) any.
Proof.
  intros Hs Hr. induction fuel as [|fuel IH]; cbn [Store.place_songs].
  - apply keeps_ret. exact I.
  - eapply keeps_bind; [apply keeps_read_list|]. intros sl _.
    eapply keeps_bind; [apply keeps_read_list|]. intros rem _.
    destruct (_ && _); [|apply keeps_ret; exact I].
    eapply keeps_bind; [apply keeps_list_pop0, Hr|]. intros song _.
    eapply keeps_bind; [|intros _ _; exact IH].
    destruct (Py.len sl =? 0); [apply keeps_list_append, Hs|].
    eapply keeps_bind; [apply keeps_read_songs|]. intros vals _.
    eapply keeps_bind; [apply keeps_read_song|]. intros s _.
    apply keeps_list_insert, Hs.
Qed.

Lemma keeps_place_guests fuel guest_performances setlist guest_idx :
  fresh_ref setlist ->
  keeps (Store.place_guests fuel guest_performances setlist guest_idx) any.
Proof.
  intros Hs. revert guest_idx.
  induction fuel as [|fuel IH]; intros guest_idx; cbn [Store.place_guests].
  - apply keeps_ret. exact I.
  - eapply keeps_bind; [apply keeps_read_list|]. intros sl _.
    eapply keeps_bind; [apply keeps_read_list|]. intros guests _.
    destruct (_ && _); [|apply keeps_ret; exact I].
    destruct (guests !! _) as [guest|]; [|apply keeps_raise].
    eapply keeps_bind; [apply keeps_list_insert, Hs|]. intros _ _.
    apply IH.
Qed.

Lemma keeps_run_trial available guest_performances bouncy this_world :
  keeps (Store.run_trial random_perm available guest_performances bouncy this_world)
        fresh_ref.
Proof.
  unfold Store.run_trial.
  eapply keeps_bind; [apply keeps_list_copy|]. intros shuffled Hshuffled.
  eapply keeps_bind; [apply keeps_random_shuffle, Hshuffled|]. intros _ _.
  eapply keeps_bind; [apply keeps_new_list|]. intros setlist Hsetlist.
  eapply keeps_bind; [apply keeps_list_copy|]. intros remaining Hremaining.
  eapply keeps_bind; [apply keeps_read_list|]. intros rem _.
  eapply keeps_bind; [apply keeps_place_songs; assumption|]. intros _ _.
  eapply keeps_bind; [apply keeps_read_list|]. intros guests _.
  eapply keeps_bind; [apply keeps_place_guests; assumption|]. intros _ _.
  eapply keeps_bind; [apply keeps_list_extend, Hsetlist|]. intros _ _.
  apply keeps_ret, Hsetlist.
Qed.

Lemma keeps_trials_loop n available guest_performances bouncy this_world best :
  keeps (Store.trials_loop random_perm n available guest_performances bouncy
           this_world best) any.
Proof.
  revert best. induction n as [|n IH]; intros best; cbn [Store.trials_loop].
  - apply keeps_ret. exact I.
  - eapply keeps_bind; [apply keeps_run_trial|]. intros setlist _.
    eapply keeps_bind; [apply keeps_read_list|]. intros sl _.
    eapply keeps_bind; [apply keeps_read_songs|]. intros vals _.
    eapply keeps_bind; [|intros best' _; apply IH].
    instantiate (1 := any).
    destruct (score_gt _ _); [|apply keeps_ret; exact I].
    eapply keeps_bind; [apply keeps_list_copy|]. intros c _.
    apply keeps_ret. exact I.
Qed.

Lemma keeps_split_groups best : keeps (Store.split_groups best) any.
Proof.
  destruct best as [b|]; cbn [Store.split_groups]; [|apply keeps_raise].
  eapply keeps_bind; [apply keeps_read_list|]. intros items _.
  do 4 (eapply keeps_bind; [apply keeps_new_list|]; intros ? _).
  eapply keeps_weaken; [apply keeps_new_list|]. done.
Qed.

Lemma keeps_generateSetlist songs guest_performances iterations :
  keeps (Store.generateSetlist random_perm songs guest_performances iterations) any.
Proof.
  unfold Store.generateSetlist.
  eapply keeps_bind; [apply keeps_read_list|]. intros refs _.
  eapply keeps_bind; [apply keeps_find_song|]. intros bouncy _.
  eapply keeps_bind; [apply keeps_find_song|]. intros this_world _.
  destruct bouncy as [bouncy|]; [|apply keeps_raise].
  destruct this_world as [this_world|]; [|apply keeps_raise].
  eapply keeps_bind; [apply keeps_read_song|]. intros b _.
  eapply keeps_bind; [apply keeps_read_song|]. intros t _.
  eapply keeps_bind; [apply keeps_available_songs|]. intros avail _.
  eapply keeps_bind; [apply keeps_new_list|]. intros available _.
  eapply keeps_bind; [apply keeps_trials_loop|]. intros best _.
  apply keeps_split_groups.
Qed.

End Frame.

End StoreFacts.

(** ** The store: the call computes what the pure functions compute *)

Module StoreRuns.
Import Obj.

Section Runs.

Context {RNG : Type} (random_perm : RNG -> nat -> list nat * RNG).

#[local] Existing Instance M_ret.
#[local] Existing Instance M_bind.

Variable h0 : gmap loc obj.

#[local] Abbreviation mk := (StoreSpec.mk (RNG:=RNG) h0).
#[local] Abbreviation local := (StoreSpec.local h0).
#[local] Abbreviation deref := (StoreSpec.deref h0).
#[local] Abbreviation found := (StoreSpec.found h0).
#[local] Abbreviation best_rel := (StoreSpec.best_rel (RNG:=RNG) h0).
#[local] Abbreviation groups_rel := (StoreSpec.groups_rel h0).

Lemma local_empty : local ∅.
Proof. intros l [c Hc]. rewrite lookup_empty in Hc. discriminate. Qed.

Lemma local_insert L l c : local L -> h0 !! l = None -> local (<[l := c]> L).
Proof.
  intros HL Hl l' [c' Hc']. destruct (decide (l = l')) as [<-|Hne]; [exact Hl|].
  rewrite lookup_insert_ne in Hc' by exact Hne. apply HL. eauto.
Qed.

Lemma local_not_h0 L l o : local L -> h0 !! l = Some o -> L !! l = None.
Proof.
  intros HL Hl. destruct (L !! l) as [c|] eqn:Hc; [|reflexivity].
  rewrite HL in Hl by eauto. discriminate.
Qed.

Lemma mk_empty g : mk ∅ g = World h0 g.
Proof. unfold StoreSpec.mk. rewrite fmap_empty, (left_id_L ∅ (∪)). reflexivity. Qed.

Lemma mk_lookup_local L g l c :
  L !! l = Some c -> heap (mk L g) !! l = Some (ListObj c).
Proof.
  intros Hc. cbn [StoreSpec.mk heap]. apply lookup_union_Some_l.
  rewrite lookup_fmap, Hc. reflexivity.
Qed.

Lemma mk_lookup_h0 L g l o :
  local L -> h0 !! l = Some o -> heap (mk L g) !! l = Some o.
Proof.
  intros HL Hl. cbn [StoreSpec.mk heap]. rewrite lookup_union_r; [exact Hl|].
  rewrite lookup_fmap, (local_not_h0 L l o HL Hl). reflexivity.
Qed.

Lemma mk_insert L g g' l c :
  World (<[l := ListObj c]> (heap (mk L g))) g' = mk (<[l := c]> L) g'.
Proof. unfold StoreSpec.mk. cbn [heap]. rewrite fmap_insert, insert_union_l. reflexivity. Qed.

(** *** Running the primitives *)

Lemma run_bind {A B} (m : M RNG A) (k : A -> M RNG B) w a w' :
  m w = (inr a, w') -> (m ≫= k) w = k a w'.
Proof. intros H. unfold mbind, M_bind. rewrite H. reflexivity. Qed.

Lemma run_new_list L g items :
  local L ->
  exists l,
    L !! l = None /\ h0 !! l = None
    /\ new_list items (mk L g) = (inr l, mk (<[l := items]> L) g).
Proof.
  intros HL. exists (fresh (dom (heap (mk L g)))).
  pose proof (is_fresh (dom (heap (mk L g)))) as Hfresh.
  rewrite not_elem_of_dom in Hfresh. cbn [StoreSpec.mk heap] in Hfresh.
  apply lookup_union_None in Hfresh as [HfL Hfh].
  rewrite lookup_fmap, fmap_None in HfL.
  split; [exact HfL|]. split; [exact Hfh|].
  unfold new_list. rewrite mk_insert. reflexivity.
Qed.

Lemma run_read_list L g l c :
  L !! l = Some c -> read_list l (mk L g) = (inr c, mk L g).
Proof. intros Hc. unfold read_list. rewrite (mk_lookup_local _ _ _ _ Hc). reflexivity. Qed.

Lemma run_read_list_h0 L g l c :
  local L -> h0 !! l = Some (ListObj c) ->
  read_list l (mk L g) = (inr c, mk L g).
Proof.
  intros HL Hc. unfold read_list.
  rewrite (mk_lookup_h0 _ _ _ _ HL Hc). reflexivity.
Qed.

Lemma run_write_list L g l items :
  write_list l items (mk L g) = (inr tt, mk (<[l := items]> L) g).
Proof. unfold write_list. rewrite mk_insert. reflexivity. Qed.

Lemma run_read_song L g r s :
  local L -> h0 !! r = Some (DictObj s) ->
  read_song r (mk L g) = (inr s, mk L g).
Proof.
  intros HL Hs. unfold read_song.
  rewrite (mk_lookup_h0 _ _ _ _ HL Hs). reflexivity.
Qed.

Lemma run_read_songs L g refs vals :
  local L -> deref refs vals ->
  read_songs refs (mk L g) = (inr vals, mk L g).
Proof.
  intros HL. induction 1 as [|r s refs vals Hr Hrest IH]; [reflexivity|].
  cbn [read_songs].
  rewrite (run_bind _ _ _ _ _ (run_read_song L g r s HL Hr)).
  rewrite (run_bind _ _ _ _ _ IH). reflexivity.
Qed.

Lemma run_draw_shuffle L g items :
  draw_shuffle random_perm items (mk L g)
  = (inr (shuffle random_perm g items).1,
     mk L (shuffle random_perm g items).2).
Proof.
  unfold draw_shuffle. cbn [gen StoreSpec.mk].
  destruct (shuffle random_perm g items) as [items' g']. reflexivity.
Qed.

(** *** Running the list methods *)

Lemma run_list_copy L g l c :
  local L -> L !! l = Some c ->
  exists l',
    L !! l' = None /\ h0 !! l' = None
    /\ list_copy l (mk L g) = (inr l', mk (<[l' := c]> L) g).
Proof.
  intros HL Hc. destruct (run_new_list L g c HL) as (l' & H1 & H2 & Hrun).
  exists l'. split; [exact H1|]. split; [exact H2|].
  unfold list_copy. rewrite (run_bind _ _ _ _ _ (run_read_list L g l c Hc)).
  exact Hrun.
Qed.

Lemma run_list_pop0 L g l x rest :
  L !! l = Some (x :: rest) ->
  list_pop0 l (mk L g) = (inr x, mk (<[l := rest]> L) g).
Proof.
  intros Hc. unfold list_pop0.
  rewrite (run_bind _ _ _ _ _ (run_read_list L g l _ Hc)).
  rewrite (run_bind _ _ _ _ _ (run_write_list L g l rest)). reflexivity.
Qed.

Lemma run_list_append L g l c x :
  L !! l = Some c ->
  list_append l x (mk L g) = (inr tt, mk (<[l := c ++ [x]]> L) g).
Proof.
  intros Hc. unfold list_append.
  rewrite (run_bind _ _ _ _ _ (run_read_list L g l _ Hc)).
  apply run_write_list.
Qed.

Lemma run_list_insert L g l c pos x :
  L !! l = Some c ->
  list_insert l pos x (mk L g) = (inr tt, mk (<[l := Py.insert c pos x]> L) g).
Proof.
  intros Hc. unfold list_insert.
  rewrite (run_bind _ _ _ _ _ (run_read_list L g l _ Hc)).
  apply run_write_list.
Qed.

Lemma run_list_extend L g l c xs :
  L !! l = Some c ->
  list_extend l xs (mk L g) = (inr tt, mk (<[l := c ++ xs]> L) g).
Proof.
  intros Hc. unfold list_extend.
  rewrite (run_bind _ _ _ _ _ (run_read_list L g l _ Hc)).
  apply run_write_list.
Qed.

Lemma run_random_shuffle L g l c :
  L !! l = Some c ->
  random_shuffle random_perm l (mk L g)
  = (inr tt, mk (<[l := (shuffle random_perm g c).1]> L)
               (shuffle random_perm g c).2).
Proof.
  intros Hc. unfold random_shuffle.
  rewrite (run_bind _ _ _ _ _ (run_read_list L g l _ Hc)).
  rewrite (run_bind _ _ _ _ _ (run_draw_shuffle L g c)).
  apply run_write_list.
Qed.

(** *** References and the songs they name *)

Lemma deref_nil : deref [] [].
Proof. constructor. Qed.

Lemma deref_len refs vals : deref refs vals -> Py.len refs = Py.len vals.
Proof. intros H. unfold Py.len. rewrite (Forall2_length _ _ _ H). reflexivity. Qed.

Lemma deref_insert refs vals pos r s :
  deref refs vals -> h0 !! r = Some (DictObj s) ->
  deref (Py.insert refs pos r) (Py.insert vals pos s).
Proof.
  intros H Hr. unfold Py.insert. rewrite (deref_len _ _ H).
  apply Forall2_app; [apply Forall2_take, H|].
  constructor; [exact Hr|apply Forall2_drop, H].
Qed.

Lemma deref_slice refs vals lo hi :
  deref refs vals -> deref (Py.slice refs lo hi) (Py.slice vals lo hi).
Proof.
  intros H. unfold Py.slice. rewrite (deref_len _ _ H).
  apply Forall2_take, Forall2_drop, H.
Qed.

Lemma deref_lookup refs vals (i : nat) r :
  deref refs vals -> refs !! i = Some r ->
  exists s, vals !! i = Some s /\ h0 !! r = Some (DictObj s).
Proof. intros H Hr. apply (Forall2_lookup_l _ _ _ _ _ H Hr). Qed.

Lemma deref_omap refs vals (idx : list nat) :
  deref refs vals ->
  deref (omap (fun i => refs !! i) idx) (omap (fun i => vals !! i) idx).
Proof.
  intros H. induction idx as [|i idx IH]; [constructor|].
  cbn [omap list_omap].
  destruct (refs !! i) as [r|] eqn:Hr.
  - destruct (deref_lookup _ _ _ _ H Hr) as (s & -> & Hs).
    constructor; [exact Hs|exact IH].
  - apply lookup_ge_None in Hr. rewrite (Forall2_length _ _ _ H) in Hr.
    apply lookup_ge_None in Hr. rewrite Hr. exact IH.
Qed.

Lemma deref_shuffle g refs vals :
  deref refs vals ->
  deref (shuffle random_perm g refs).1 (shuffle random_perm g vals).1
  /\ (shuffle random_perm g refs).2 = (shuffle random_perm g vals).2.
Proof.
  intros H. unfold shuffle. rewrite (Forall2_length _ _ _ H).
  destruct (random_perm g (length vals)) as [idx g']. cbn [fst snd].
  split; [apply deref_omap, H|reflexivity].
Qed.

(** *** Running the parts of [generateSetlist] *)

Lemma run_find_song L g sub refs vals :
  local L -> deref refs vals ->
  exists res,
    Store.find_song sub refs (mk L g) = (inr res, mk L g)
    /\ found res (find_song sub vals).
Proof.
  intros HL. induction 1 as [|r s refs vals Hr Hrest IH].
  - exists None. split; [reflexivity|exact I].
  - cbn [Store.find_song].
    rewrite (run_bind _ _ _ _ _ (run_read_song L g r s HL Hr)).
    unfold find_song. cbn [List.find].
    destruct (str_contains sub (name s)).
    + exists (Some r). split; [reflexivity|exact Hr].
    + exact IH.
Qed.

Lemma run_available_songs L g refs vals b t :
  local L -> deref refs vals ->
  exists keep,
    Store.available_songs refs b t (mk L g) = (inr keep, mk L g)
    /\ deref keep (available_songs vals b t).
Proof.
  intros HL. induction 1 as [|r s refs vals Hr Hrest IH].
  - exists []. split; [reflexivity|constructor].
  - destruct IH as (keep & Hrun & Hkeep).
    cbn [Store.available_songs].
    rewrite (run_bind _ _ _ _ _ (run_read_song L g r s HL Hr)).
    rewrite (run_bind _ _ _ _ _ Hrun).
    unfold available_songs. cbn [List.filter].
    destruct (negb (bool_decide (s ∈ [b; t]))).
    + exists (r :: keep). split; [reflexivity|].
      constructor; [exact Hr|exact Hkeep].
    + exists keep. split; [reflexivity|exact Hkeep].
Qed.

Lemma run_place_songs fuel :
  forall L g setlist remaining sl rem slv remv,
    local L ->
    L !! setlist = Some sl -> L !! remaining = Some rem ->
    setlist <> remaining ->
    deref sl slv -> deref rem remv ->
    (length rem <= fuel)%nat ->
    exists L' sl',
      Store.place_songs fuel setlist remaining (mk L g) = (inr tt, mk L' g)
      /\ local L'
      /\ L' !! setlist = Some sl'
      /\ deref sl' (place_songs slv remv).1
      /\ (forall l, l <> setlist -> l <> remaining -> L' !! l = L !! l).
Proof.
  induction fuel as [|fuel IH];
    intros L g setlist remaining sl rem slv remv HL Hsl Hrem Hne Dsl Drem Hfuel.
  - destruct Drem; [|cbn in Hfuel; lia].
    exists L, sl. cbn. repeat split; auto.
  - cbn [Store.place_songs].
    rewrite (run_bind _ _ _ _ _ (run_read_list L g _ _ Hsl)).
    rewrite (run_bind _ _ _ _ _ (run_read_list L g _ _ Hrem)).
    rewrite (deref_len _ _ Dsl).
    destruct Drem as [|r s rest restv Hr Drest].
    { rewrite bool_decide_eq_true_2 by reflexivity. rewrite andb_false_r.
      exists L, sl. cbn. repeat split; auto. }
    rewrite bool_decide_eq_false_2 by discriminate.
    cbn [negb place_songs]. rewrite andb_true_r.
    destruct (Py.len slv <? total_needed).
    2: { exists L, sl. cbn. repeat split; auto. }
    rewrite (run_bind _ _ _ _ _ (run_list_pop0 L g _ _ _ Hrem)).
    set (L1 := <[remaining := rest]> L).
    assert (HL1 : local L1).
    { apply local_insert; [exact HL|]. apply HL. eauto. }
    assert (Hsl1 : L1 !! setlist = Some sl).
    { unfold L1. rewrite lookup_insert_ne by congruence. exact Hsl. }
    assert (Hstep : forall sl2 slv2,
      deref sl2 slv2 ->
      exists L' sl',
        Store.place_songs fuel setlist remaining
          (mk (<[setlist := sl2]> L1) g) = (inr tt, mk L' g)
        /\ local L' /\ L' !! setlist = Some sl'
        /\ deref sl' (place_songs slv2 restv).1
        /\ (forall l, l <> setlist -> l <> remaining -> L' !! l = L !! l)).
    { intros sl2 slv2 D2.
      destruct (IH (<[setlist := sl2]> L1) g setlist remaining sl2 rest
                  slv2 restv) as (L' & sl' & Hrun & HL' & Hsl' & D' & Hframe).
      - apply local_insert; [exact HL1|]. apply HL. eauto.
      - apply lookup_insert_eq.
      - rewrite lookup_insert_ne by congruence. apply lookup_insert_eq.
      - exact Hne.
      - exact D2.
      - exact Drest.
      - cbn in Hfuel. lia.
      - exists L', sl'. repeat split; try assumption.
        intros l Hl1 Hl2. rewrite (Hframe l Hl1 Hl2).
        unfold L1. rewrite !lookup_insert_ne by congruence. reflexivity. }
    destruct (Py.len slv =? 0).
    + rewrite (run_bind _ _ _ _ _ (run_list_append L1 g _ _ r Hsl1)).
      apply Hstep. apply Forall2_app; [exact Dsl|]. constructor; [exact Hr|constructor].
    + erewrite run_bind.
      2: { rewrite (run_bind _ _ _ _ _ (run_read_songs L1 g sl slv HL1 Dsl)).
           rewrite (run_bind _ _ _ _ _ (run_read_song L1 g r s HL1 Hr)).
           apply (run_list_insert L1 g _ _ _ r Hsl1). }
      apply Hstep. apply deref_insert; assumption.
Qed.

Lemma run_place_guests fuel :
  forall L g guest_performances setlist sl slv guests gvals guest_idx,
    local L ->
    L !! setlist = Some sl ->
    h0 !! guest_performances = Some (ListObj guests) ->
    deref sl slv -> deref guests gvals ->
    0 <= guest_idx ->
    exists L' sl',
      Store.place_guests fuel guest_performances setlist guest_idx (mk L g)
      = (inr (place_guests fuel gvals slv guest_idx).2, mk L' g)
      /\ local L'
      /\ L' !! setlist = Some sl'
      /\ deref sl' (place_guests fuel gvals slv guest_idx).1
      /\ (forall l, l <> setlist -> L' !! l = L !! l).
Proof.
  induction fuel as [|fuel IH];
    intros L g guest_performances setlist sl slv guests gvals guest_idx
           HL Hsl Hguests Dsl Dg Hidx.
  - exists L, sl. cbn. repeat split; auto.
  - cbn [Store.place_guests place_guests].
    rewrite (run_bind _ _ _ _ _ (run_read_list L g _ _ Hsl)).
    rewrite (run_bind _ _ _ _ _ (run_read_list_h0 L g _ _ HL Hguests)).
    rewrite (deref_len _ _ Dsl), (deref_len _ _ Dg).
    destruct (Py.len slv <? total_needed); cbn [andb].
    2: { exists L, sl. cbn. repeat split; auto. }
    destruct (Z.ltb_spec guest_idx (Py.len gvals)) as [Hlt|Hge].
    2: { exists L, sl. cbn. repeat split; auto. }
    destruct (lookup_lt_is_Some_2 guests (Z.to_nat guest_idx)) as [r Hr].
    { rewrite (Forall2_length _ _ _ Dg). unfold Py.len in Hlt. lia. }
    destruct (deref_lookup _ _ _ _ Dg Hr) as (s & Hs & Hrs).
    rewrite Hr, Hs.
    set (ideal_pos := _ / _).
    rewrite (run_bind _ _ _ _ _ (run_list_insert L g _ _ ideal_pos r Hsl)).
    destruct (IH (<[setlist := Py.insert sl ideal_pos r]> L) g
                guest_performances setlist (Py.insert sl ideal_pos r)
                (Py.insert slv ideal_pos s) guests gvals (guest_idx + 1))
      as (L' & sl' & Hrun & HL' & Hsl' & D' & Hframe).
    + apply local_insert; [exact HL|]. apply HL. eauto.
    + apply lookup_insert_eq.
    + exact Hguests.
    + apply deref_insert; assumption.
    + exact Dg.
    + lia.
    + exists L', sl'. repeat split; try assumption.
      intros l Hl. rewrite (Hframe l Hl).
      rewrite lookup_insert_ne by congruence. reflexivity.
Qed.

Lemma run_run_trial L g available guest_performances bouncy this_world
    avail availv guests gvals b t :
  local L ->
  L !! available = Some avail ->
  h0 !! guest_performances = Some (ListObj guests) ->
  deref avail availv -> deref guests gvals ->
  h0 !! bouncy = Some (DictObj b) -> h0 !! this_world = Some (DictObj t) ->
  exists L' setlist refs,
    Store.run_trial random_perm available guest_performances bouncy
      this_world (mk L g)
    = (inr setlist, mk L' (run_trial random_perm availv gvals b t g).2)
    /\ local L'
    /\ L' !! setlist = Some refs
    /\ deref refs (run_trial random_perm availv gvals b t g).1
    /\ L ⊆ L'.
Proof.
  intros HL Havail Hguests Davail Dg Hb Ht.
  unfold Store.run_trial, run_trial, build_setlist.
  destruct (deref_shuffle g _ _ Davail) as [Dsh Hgen].
  destruct (shuffle random_perm g availv) as [shuffledv g'] eqn:Hshv.
  cbn [fst snd] in *.
  (* shuffled = available_songs.copy(); random.shuffle(shuffled) *)
  destruct (run_list_copy L g _ _ HL Havail) as (shuffled & Hs1 & Hs2 & Hrun).
  rewrite (run_bind _ _ _ _ _ Hrun). clear Hrun.
  set (L1 := <[shuffled := avail]> L).
  assert (HL1 : local L1) by (apply local_insert; assumption).
  rewrite (run_bind _ _ _ _ _
             (run_random_shuffle L1 g shuffled avail (lookup_insert_eq _ _ _))).
  rewrite Hgen. unfold L1. rewrite insert_insert_eq.
  set (sh := (shuffle random_perm g avail).1) in *.
  set (L2 := <[shuffled := sh]> L).
  assert (HL2 : local L2) by (apply local_insert; assumption).
  (* setlist = []; remaining = shuffled.copy() *)
  destruct (run_new_list L2 g' [] HL2) as (setlist & Hn1 & Hn2 & Hrun).
  rewrite (run_bind _ _ _ _ _ Hrun). clear Hrun.
  set (L3 := <[setlist := []]> L2).
  assert (HL3 : local L3) by (apply local_insert; assumption).
  assert (Hsh3 : L3 !! shuffled = Some sh).
  { unfold L3, L2. rewrite lookup_insert_ne, lookup_insert_eq; [reflexivity|].
    intros <-. unfold L2 in Hn1. rewrite lookup_insert_eq in Hn1. discriminate. }
  destruct (run_list_copy L3 g' _ _ HL3 Hsh3) as (remaining & Hr1 & Hr2 & Hrun).
  rewrite (run_bind _ _ _ _ _ Hrun). clear Hrun.
  set (L4 := <[remaining := sh]> L3).
  assert (HL4 : local L4) by (apply local_insert; assumption).
  assert (Hne : setlist <> remaining).
  { intros <-. unfold L3 in Hr1. rewrite lookup_insert_eq in Hr1. discriminate. }
  assert (Hrem4 : L4 !! remaining = Some sh) by apply lookup_insert_eq.
  assert (Hset4 : L4 !! setlist = Some []).
  { unfold L4, L3. rewrite lookup_insert_ne by congruence. apply lookup_insert_eq. }
  rewrite (run_bind _ _ _ _ _ (run_read_list L4 g' _ _ Hrem4)).
  (* the two loops *)
  destruct (run_place_songs (length sh) L4 g' setlist remaining [] sh []
              shuffledv HL4 Hset4 Hrem4 Hne deref_nil Dsh (le_n _))
    as (L5 & sl5 & Hrun & HL5 & Hset5 & D5 & Hframe5).
  rewrite (run_bind _ _ _ _ _ Hrun). clear Hrun.
  rewrite (run_bind _ _ _ _ _ (run_read_list_h0 L5 g' _ _ HL5 Hguests)).
  rewrite (Forall2_length _ _ _ Dg).
  destruct (place_songs [] shuffledv) as [slv5 restv5]. cbn [fst] in D5.
  destruct (run_place_guests (length gvals) L5 g' guest_performances setlist
              sl5 slv5 guests gvals 0 HL5 Hset5 Hguests D5 Dg (Z.le_refl 0))
    as (L6 & sl6 & Hrun & HL6 & Hset6 & D6 & Hframe6).
  rewrite (run_bind _ _ _ _ _ Hrun). clear Hrun.
  destruct (place_guests (length gvals) gvals slv5 0) as [slv6 idx6].
  cbn [fst] in D6.
  (* setlist.extend([bouncy, this_world]) *)
  rewrite (run_bind _ _ _ _ _ (run_list_extend L6 g' _ _ [bouncy; this_world] Hset6)).
  exists (<[setlist := sl6 ++ [bouncy; this_world]]> L6), setlist,
         (sl6 ++ [bouncy; this_world]).
  split; [reflexivity|].
  split; [apply local_insert; assumption|].
  split; [apply lookup_insert_eq|].
  split.
  { apply Forall2_app; [exact D6|]. repeat constructor; assumption. }
  apply map_subseteq_spec. intros l c Hl.
  assert (l <> shuffled) by congruence.
  assert (l <> setlist).
  { intros ->. unfold L2 in Hn1. rewrite lookup_insert_ne in Hn1 by congruence.
    congruence. }
  assert (l <> remaining).
  { intros ->. unfold L3, L2 in Hr1.
    rewrite !lookup_insert_ne in Hr1 by congruence. congruence. }
  rewrite lookup_insert_ne by congruence.
  rewrite Hframe6 by assumption. rewrite Hframe5 by assumption.
  unfold L4, L3, L2. rewrite !lookup_insert_ne by congruence. exact Hl.
Qed.

Lemma lookup_insert_fresh (L : gmap loc (list loc)) l l' c c' :
  L !! l = Some c -> L !! l' = None -> <[l' := c']> L !! l = Some c.
Proof. intros Hl Hl'. rewrite lookup_insert_ne by congruence. exact Hl. Qed.

Lemma best_rel_mono L L' best st : L ⊆ L' -> best_rel L best st -> best_rel L' best st.
Proof.
  intros Hsub [Hscore Hbest]. split; [exact Hscore|].
  destruct best.1 as [c|], (best_setlist st) as [v|]; try exact Hbest.
  destruct Hbest as (refs & Hc & D). exists refs.
  split; [eapply lookup_weaken; eassumption|exact D].
Qed.

Lemma run_trials_loop n available guest_performances bouncy this_world
    avail availv guests gvals b t :
  h0 !! guest_performances = Some (ListObj guests) ->
  deref avail availv -> deref guests gvals ->
  h0 !! bouncy = Some (DictObj b) -> h0 !! this_world = Some (DictObj t) ->
  forall L best st,
    local L -> L !! available = Some avail -> best_rel L best st ->
    let st' := trials_loop n (trial_step random_perm availv gvals b t) st in
    exists L' best',
      Store.trials_loop random_perm n available guest_performances bouncy
        this_world best (mk L (rng st))
      = (inr best', mk L' (rng st'))
      /\ local L' /\ best_rel L' best' st' /\ L ⊆ L'.
Proof.
  intros Hguests Davail Dg Hb Ht.
  induction n as [|n IH]; intros L best st HL Havail Hbest st'.
  - exists L, best. subst st'. cbn [trials_loop Store.trials_loop].
    split; [reflexivity|]. split; [exact HL|]. split; [exact Hbest|reflexivity].
  - subst st'. cbn [Store.trials_loop trials_loop].
    destruct (run_run_trial L (rng st) available guest_performances bouncy
                this_world avail availv guests gvals b t
                HL Havail Hguests Davail Dg Hb Ht)
      as (L1 & setlist & refs & Hrun & HL1 & Hset & D & Hsub).
    rewrite (run_bind _ _ _ _ _ Hrun). clear Hrun.
    pose proof (trial_step_cases random_perm availv gvals b t st) as [Hrng Hcase].
    cbv zeta in Hcase.
    set (built := run_trial random_perm availv gvals b t (rng st)) in *.
    rewrite <- Hrng.
    set (st1 := trial_step random_perm availv gvals b t st) in *.
    rewrite (run_bind _ _ _ _ _ (run_read_list L1 _ _ _ Hset)).
    rewrite (run_bind _ _ _ _ _ (run_read_songs L1 _ _ _ HL1 D)).
    destruct Hbest as [Hscore Hbest]. rewrite Hscore.
    destruct (score_gt _ _).
    + destruct Hcase as [Hbs Hsc].
      destruct (run_list_copy L1 (rng st1) _ _ HL1 Hset) as (c & Hc1 & Hc2 & Hrun).
      erewrite run_bind; [|rewrite (run_bind _ _ _ _ _ Hrun); reflexivity].
      destruct (IH (<[c := refs]> L1)
                  (Some c, Fin (calculate_setlist_score built.1)) st1)
        as (L' & best' & Hloop & HL' & Hrel & Hsub').
      * apply local_insert; assumption.
      * apply lookup_insert_fresh; [|exact Hc1].
        eapply lookup_weaken; eassumption.
      * split; [symmetry; exact Hsc|]. cbn [fst]. rewrite Hbs.
        exists refs. split; [apply lookup_insert_eq|exact D].
      * exists L', best'.
        split; [exact Hloop|]. split; [exact HL'|]. split; [exact Hrel|].
        etransitivity; [exact Hsub|].
        etransitivity; [|exact Hsub']. apply insert_subseteq, Hc1.
    + destruct Hcase as [Hbs Hsc].
      erewrite run_bind; [|reflexivity].
      destruct (IH L1 best st1) as (L' & best' & Hloop & HL' & Hrel & Hsub').
      * exact HL1.
      * eapply lookup_weaken; eassumption.
      * apply (best_rel_mono L); [exact Hsub|].
        split; [congruence|]. rewrite Hbs. exact Hbest.
      * exists L', best'.
        split; [exact Hloop|]. split; [exact HL'|]. split; [exact Hrel|].
        etransitivity; eassumption.
Qed.

Lemma run_split_groups L g best st :
  local L -> best_rel L best st ->
  match split_groups (best_setlist st) with
  | inl e => Store.split_groups best.1 (mk L g) = (inl e, mk L g)
  | inr groups =>
      exists L' gl,
        Store.split_groups best.1 (mk L g) = (inr gl, mk L' g)
        /\ local L' /\ groups_rel L' gl groups
  end.
Proof.
  intros HL [_ Hbest].
  destruct best.1 as [c|], (best_setlist st) as [v|]; try contradiction;
    [|reflexivity].
  destruct Hbest as (refs & Hc & D). cbn [split_groups Store.split_groups].
  rewrite (run_bind _ _ _ _ _ (run_read_list L g _ _ Hc)).
  destruct (run_new_list L g (Py.slice refs 0 5) HL) as (g1 & H1 & H1' & Hrun).
  rewrite (run_bind _ _ _ _ _ Hrun). clear Hrun.
  set (L1 := <[g1 := _]> L).
  assert (HL1 : local L1) by (apply local_insert; assumption).
  destruct (run_new_list L1 g (Py.slice refs 5 10) HL1) as (g2 & H2 & H2' & Hrun).
  rewrite (run_bind _ _ _ _ _ Hrun). clear Hrun.
  set (L2 := <[g2 := _]> L1).
  assert (HL2 : local L2) by (apply local_insert; assumption).
  destruct (run_new_list L2 g (Py.slice refs 10 15) HL2) as (g3 & H3 & H3' & Hrun).
  rewrite (run_bind _ _ _ _ _ Hrun). clear Hrun.
  set (L3 := <[g3 := _]> L2).
  assert (HL3 : local L3) by (apply local_insert; assumption).
  destruct (run_new_list L3 g (Py.slice refs 15 21) HL3) as (g4 & H4 & H4' & Hrun).
  rewrite (run_bind _ _ _ _ _ Hrun). clear Hrun.
  set (L4 := <[g4 := _]> L3).
  assert (HL4 : local L4) by (apply local_insert; assumption).
  destruct (run_new_list L4 g [g1; g2; g3; g4] HL4) as (gl & H5 & H5' & Hrun).
  exists (<[gl := [g1; g2; g3; g4]]> L4), gl.
  split; [exact Hrun|]. split; [apply local_insert; assumption|].
  exists [g1; g2; g3; g4]. split; [apply lookup_insert_eq|].
  assert (E1 : L1 !! g1 = Some (Py.slice refs 0 5)) by apply lookup_insert_eq.
  assert (E2 : L2 !! g2 = Some (Py.slice refs 5 10)) by apply lookup_insert_eq.
  assert (E3 : L3 !! g3 = Some (Py.slice refs 10 15)) by apply lookup_insert_eq.
  assert (E4 : L4 !! g4 = Some (Py.slice refs 15 21)) by apply lookup_insert_eq.
  repeat constructor; eexists; (split; [|apply deref_slice, D]).
  - apply lookup_insert_fresh; [|exact H5].
    apply lookup_insert_fresh; [|exact H4].
    apply lookup_insert_fresh; [|exact H3].
    apply lookup_insert_fresh; [exact E1|exact H2].
  - apply lookup_insert_fresh; [|exact H5].
    apply lookup_insert_fresh; [|exact H4].
    apply lookup_insert_fresh; [exact E2|exact H3].
  - apply lookup_insert_fresh; [|exact H5].
    apply lookup_insert_fresh; [exact E3|exact H4].
  - apply lookup_insert_fresh; [exact E4|exact H5].
Qed.

(** A call on the caller's heap, with the songs and guests it names,
    raises what the pure [generateSetlist] raises or returns a list of
    four lists of references to the songs of the pure groups; the
    generator ends in the same state. *)
Theorem run_generateSetlist songs guest_performances iterations g
    srefs svals grefs gvals :
  h0 !! songs = Some (ListObj srefs) ->
  h0 !! guest_performances = Some (ListObj grefs) ->
  deref srefs svals -> deref grefs gvals ->
  let pure := generateSetlist random_perm svals gvals iterations g in
  let run :=
    Store.generateSetlist random_perm songs guest_performances iterations
      (World h0 g) in
  exists L',
    run.2 = mk L' pure.2 /\ local L'
    /\ match pure.1 with
       | inl e => run.1 = inl e
       | inr groups => exists gl, run.1 = inr gl /\ groups_rel L' gl groups
       end.
Proof.
  intros Hsongs Hguests Ds Dg. cbv zeta.
  rewrite <- (mk_empty g).
  unfold Store.generateSetlist, generateSetlist.
  rewrite (run_bind _ _ _ _ _ (run_read_list_h0 ∅ g _ _ local_empty Hsongs)).
  destruct (run_find_song ∅ g "Bouncy" _ _ local_empty Ds) as (rb & Hrun & Hfb).
  rewrite (run_bind _ _ _ _ _ Hrun). clear Hrun.
  destruct (run_find_song ∅ g "This World" _ _ local_empty Ds) as (rt & Hrun & Hft).
  rewrite (run_bind _ _ _ _ _ Hrun). clear Hrun.
  unfold StoreSpec.found in *.
  destruct rb as [bouncy|], (find_song "Bouncy" svals) as [b|];
    try contradiction.
  2: { exists ∅. destruct rt; cbn; repeat split; apply local_empty. }
  destruct rt as [this_world|], (find_song "This World" svals) as [t|];
    try contradiction.
  2: { exists ∅. cbn. repeat split; apply local_empty. }
  rewrite (run_bind _ _ _ _ _ (run_read_song ∅ g _ _ local_empty Hfb)).
  rewrite (run_bind _ _ _ _ _ (run_read_song ∅ g _ _ local_empty Hft)).
  destruct (run_available_songs ∅ g _ _ b t local_empty Ds)
    as (avail & Hrun & Davail).
  rewrite (run_bind _ _ _ _ _ Hrun). clear Hrun.
  destruct (run_new_list ∅ g avail local_empty) as (available & _ & Ha & Hrun).
  rewrite (run_bind _ _ _ _ _ Hrun). clear Hrun.
  set (L1 := <[available := avail]> ∅).
  assert (HL1 : local L1) by (apply local_insert; [apply local_empty|exact Ha]).
  destruct (run_trials_loop (Z.to_nat iterations) available guest_performances
              bouncy this_world avail _ grefs gvals b t Hguests Davail Dg
              Hfb Hft L1 (None, NegInf) (OptState None NegInf g) HL1
              (lookup_insert_eq _ _ _))
    as (L2 & best & Hrun & HL2 & Hrel & _).
  { split; [reflexivity|exact I]. }
  cbn [rng] in Hrun. rewrite (run_bind _ _ _ _ _ Hrun). clear Hrun.
  unfold optimize. cbn [fst snd].
  set (st := trials_loop _ _ _) in *.
  pose proof (run_split_groups L2 (rng st) best st HL2 Hrel) as Hsplit.
  destruct (split_groups (best_setlist st)) as [e|groups].
  - exists L2. rewrite Hsplit. repeat split; assumption.
  - destruct Hsplit as (L' & gl & Hrun & HL' & Hgroups).
    exists L'. rewrite Hrun. cbn [fst snd].
    split; [reflexivity|]. split; [exact HL'|].
    exists gl. split; [reflexivity|exact Hgroups].
Qed.

(** Without an anchor the call raises at once: the world is the one it
    was given, no list has been made and the generator has not moved. *)
Lemma run_generateSetlist_no_anchor songs guest_performances iterations g
    srefs svals :
  h0 !! songs = Some (ListObj srefs) ->
  deref srefs svals ->
  find_song "Bouncy" svals = None \/ find_song "This World" svals = None ->
  Store.generateSetlist random_perm songs guest_performances iterations
    (World h0 g)
  = (inl (ValueError "Bouncy and This World must be in the song list"),
     World h0 g).
Proof.
  intros Hsongs Ds Hnone.
  rewrite <- (mk_empty g). unfold Store.generateSetlist.
  rewrite (run_bind _ _ _ _ _ (run_read_list_h0 ∅ g _ _ local_empty Hsongs)).
  destruct (run_find_song ∅ g "Bouncy" _ _ local_empty Ds) as (rb & Hrun & Hfb).
  rewrite (run_bind _ _ _ _ _ Hrun). clear Hrun.
  destruct (run_find_song ∅ g "This World" _ _ local_empty Ds) as (rt & Hrun & Hft).
  rewrite (run_bind _ _ _ _ _ Hrun). clear Hrun.
  unfold StoreSpec.found in *.
  destruct Hnone as [Hnone|Hnone]; rewrite Hnone in *.
  - destruct rb; [contradiction|]. reflexivity.
  - destruct rt; [contradiction|]. destruct rb; reflexivity.
Qed.

End Runs.

End StoreRuns.

(** The statement at a small heap: two songs, the anchors and a guest. *)
Example run_generateSetlist_small :
  let pure :=
    generateSetlist Examples.keep_order
      [Examples.A; Examples.bouncy; Examples.B; Examples.this_world]
      [Examples.guest1] 2 tt in
  let run :=
    Store.generateSetlist Examples.keep_order 10%nat 11%nat 2
      (Obj.World Examples.heap0 tt) in
  exists L',
    run.2 = StoreSpec.mk Examples.heap0 L' pure.2
    /\ StoreSpec.local Examples.heap0 L'
    /\ match pure.1 with
       | inl e => run.1 = inl e
       | inr groups =>
           exists gl,
             run.1 = inr gl /\ StoreSpec.groups_rel Examples.heap0 L' gl groups
       end.
Proof.
  apply (StoreRuns.run_generateSetlist Examples.keep_order Examples.heap0
           10%nat 11%nat 2 tt [0; 1; 2; 3]%nat _ [4%nat] _);
    [reflexivity|reflexivity|repeat constructor|repeat constructor].
Qed.

(** A trial by hand: from [A; B; C] in this order, [B] goes before [A]
    (both positions tie), [C] goes first, the guest goes to position
    [3 * 1 // 2 = 1], and the anchors close the sequence. *)
Example generateSetlist_small :
  match (generateSetlist Examples.keep_order
           [Examples.A; Examples.bouncy; Examples.B; Examples.C;
            Examples.this_world] [Examples.guest1] 1 tt).1 with
  | inr groups =>
      map (map name) groups
      = [["c"; "g1"; "b"; "a"; "Bouncy (joint)"]; ["01 This World"]; []; []]
  | inl _ => False
  end.
Proof. vm_compute. reflexivity. Qed.

(** ** More on the position pairs, the slices and a trial *)

Lemma near_pairs_NoDup (n : nat) : NoDup (near_pairs n).
Proof.
  unfold near_pairs. apply NoDup_bind.
  - intros i1 i2 [i j] _ _ H1 H2.
    apply list_elem_of_fmap in H1 as (j1 & [= -> ->] & _).
    apply list_elem_of_fmap in H2 as (j2 & [= -> ->] & _).
    reflexivity.
  - intros i _. apply NoDup_fmap_2.
    + intros j1 j2 [= ->]. reflexivity.
    + apply NoDup_filter.
      repeat (apply NoDup_cons; split;
              [rewrite ?elem_of_cons, elem_of_nil; lia|]).
      apply NoDup_nil_2.
  - apply NoDup_seq.
Qed.

Lemma slice_take_drop {A} (l : list A) (lo hi : Z) :
  0 <= lo <= hi ->
  Py.slice l lo hi = take (Z.to_nat hi - Z.to_nat lo) (drop (Z.to_nat lo) l).
Proof.
  intros Hlh. unfold Py.slice, Py.norm, Py.len.
  destruct (Z.ltb_spec lo 0); [lia|]. destruct (Z.ltb_spec hi 0); [lia|].
  destruct (Z.le_gt_cases (Z.of_nat (length l)) lo) as [Hge|Hlt].
  - rewrite !drop_ge by lia. rewrite !take_nil. reflexivity.
  - rewrite (Z.min_l lo) by lia.
    destruct (Z.le_gt_cases hi (Z.of_nat (length l))) as [Hle|Hgt].
    + rewrite Z.min_l by lia. f_equal. lia.
    + rewrite Z.min_r by lia.
      rewrite !take_ge; [reflexivity| |]; rewrite length_drop; lia.
Qed.

Lemma split_groups_slices (l : list Song) :
  split_groups (Some l) = inr (four_slices l).
Proof.
  unfold split_groups, four_slices.
  rewrite !slice_take_drop by lia. reflexivity.
Qed.

Lemma four_slices_concat (l : list Song) : concat (four_slices l) = take 21 l.
Proof.
  unfold four_slices. cbn [concat]. rewrite app_nil_r.
  replace (drop 15 l) with (drop 5 (drop 10 l)) by apply drop_drop.
  rewrite take_take_drop.
  replace (drop 10 l) with (drop 5 (drop 5 l)) by apply drop_drop.
  rewrite !take_take_drop. reflexivity.
Qed.

Section TrialFacts.

Context {RNG : Type} (random_perm : RNG -> nat -> list nat * RNG).
Context (available guest_performances : list Song) (bouncy this_world : Song).

Lemma run_trial_spec (g : RNG) :
  let shuffled := (shuffle random_perm g available).1 in
  exists body,
    (run_trial random_perm available guest_performances bouncy this_world g).1
    = body ++ [bouncy; this_world]
    /\ body ≡ₚ take (songs_taken shuffled) shuffled
              ++ take (guests_taken shuffled guest_performances)
                   guest_performances.
Proof.
  cbv zeta. unfold run_trial.
  destruct (shuffle random_perm g available) as [shuffled g'].
  cbn [fst]. apply build_setlist_spec.
Qed.

Lemma run_trial_length (g : RNG) :
  rearranges random_perm ->
  length (run_trial random_perm available guest_performances bouncy
            this_world g).1
  = (Nat.min 19 (length available + length guest_performances) + 2)%nat.
Proof.
  intros Hperm.
  destruct (run_trial_spec g) as (body & -> & Hbody).
  pose proof (shuffle_perm random_perm g available Hperm) as Hsh.
  rewrite length_app, (Permutation_length Hbody), length_app, !length_take.
  unfold guests_taken, songs_taken.
  rewrite (Permutation_length Hsh). cbn [length]. lia.
Qed.

End TrialFacts.

Lemma place_guests_fuel fuel (guest_performances setlist : list Song) (g : nat) :
  (length guest_performances - g <= fuel)%nat ->
  place_guests fuel guest_performances setlist (Z.of_nat g)
  = place_guests (length guest_performances - g) guest_performances setlist
      (Z.of_nat g).
Proof.
  revert setlist g. induction fuel as [|fuel IH]; intros setlist g Hfuel.
  - replace (length guest_performances - g)%nat with 0%nat by lia. reflexivity.
  - destruct (Nat.le_gt_cases (length guest_performances) g) as [Hge|Hlt].
    + replace (length guest_performances - g)%nat with 0%nat by lia.
      cbn [place_guests]. unfold Py.len.
      destruct (Z.ltb_spec (Z.of_nat g) (Z.of_nat (length guest_performances)));
        [lia|].
      rewrite andb_false_r. reflexivity.
    + replace (length guest_performances - g)%nat
        with (S (length guest_performances - S g)) by lia.
      cbn [place_guests].
      destruct (_ && _); [|reflexivity].
      destruct (guest_performances !! _) as [guest|]; [|reflexivity].
      replace (Z.of_nat g + 1) with (Z.of_nat (S g)) by lia.
      apply IH. lia.
Qed.

Lemma ideal_pos_in_range (guest_performances setlist : list Song) (g : nat) :
  (g < length guest_performances)%nat ->
  0 <= Py.len setlist * (Z.of_nat g + 1) / (Py.len guest_performances + 1)
    <= Py.len setlist.
Proof.
  intros Hg. unfold Py.len. split.
  - apply Z.div_pos; lia.
  - apply Z.div_le_upper_bound; nia.
Qed.

(** The loop body is [guest_step] when the loop condition holds. *)
Lemma place_guests_step fuel (guest_performances setlist : list Song) (g : nat) :
  Py.len setlist < total_needed ->
  (g < length guest_performances)%nat ->
  place_guests (S fuel) guest_performances setlist (Z.of_nat g)
  = (let st := guest_step guest_performances (setlist, Z.of_nat g) in
     place_guests fuel guest_performances st.1 st.2).
Proof.
  intros Hlen Hg.
  destruct (lookup_lt_is_Some_2 guest_performances g Hg) as [guest Hguest].
  pose proof (ideal_pos_in_range guest_performances setlist g Hg) as Hpos.
  cbn [place_guests guest_step].
  destruct (Z.ltb_spec (Py.len setlist) total_needed); [|lia].
  destruct (Z.ltb_spec (Z.of_nat g) (Py.len guest_performances));
    [|unfold Py.len in *; lia].
  cbn [andb]. rewrite Nat2Z.id, Hguest. cbv zeta. cbn [fst snd].
  unfold Py.insert. rewrite (PyFacts.norm_in_range _ _ Hpos). reflexivity.
Qed.

(** The loop leaves its state alone when the loop condition fails. *)
Lemma place_guests_exit fuel (guest_performances setlist : list Song) (g : Z) :
  (Py.len setlist <? total_needed) && (g <? Py.len guest_performances) = false ->
  place_guests fuel guest_performances setlist g = (setlist, g).
Proof.
  intros Hc. destruct fuel as [|fuel]; [reflexivity|].
  cbn [place_guests]. rewrite Hc. reflexivity.
Qed.

(** The guest loop is [guest_step], [guest_passes] times over. *)
Lemma place_guests_iter fuel (guest_performances setlist : list Song) (g : nat) :
  (length guest_performances - g <= fuel)%nat ->
  place_guests fuel guest_performances setlist (Z.of_nat g)
  = Nat.iter (guest_passes guest_performances setlist g)
      (guest_step guest_performances) (setlist, Z.of_nat g).
Proof.
  revert setlist g. induction fuel as [|fuel IH]; intros setlist g Hfuel.
  - replace (guest_passes guest_performances setlist g) with 0%nat
      by (unfold guest_passes; lia).
    reflexivity.
  - destruct (decide (Py.len setlist < total_needed
                      /\ (g < length guest_performances)%nat)) as [[Hlen Hg]|Hno].
    + rewrite (place_guests_step _ _ _ _ Hlen Hg). cbv zeta.
      destruct (lookup_lt_is_Some_2 guest_performances g Hg) as [guest Hguest].
      pose proof (ideal_pos_in_range guest_performances setlist g Hg) as Hpos.
      unfold guest_step. rewrite Nat2Z.id, Hguest. cbv zeta. cbn [fst snd].
      set (p := Z.to_nat _).
      replace (Z.of_nat g + 1) with (Z.of_nat (S g)) by lia.
      rewrite IH by lia.
      replace (guest_passes guest_performances setlist g)
        with (S (guest_passes guest_performances
                   (take p setlist ++ guest :: drop p setlist) (S g))).
      * rewrite Nat.iter_succ_r. cbn [guest_step].
        rewrite Nat2Z.id, Hguest. cbv zeta. fold p.
        replace (Z.of_nat g + 1) with (Z.of_nat (S g)) by lia. reflexivity.
      * unfold guest_passes, total_needed, Py.len in *.
        rewrite length_app. cbn [length].
        rewrite length_take, length_drop. subst p. lia.
    + replace (guest_passes guest_performances setlist g) with 0%nat
        by (unfold guest_passes, total_needed, Py.len in *; lia).
      apply place_guests_exit. unfold total_needed, Py.len in *.
      apply andb_false_iff.
      destruct (Z.ltb_spec (Z.of_nat (length setlist)) 19); [right|left; reflexivity].
      apply Z.ltb_ge. lia.
Qed.

Lemma no_substring_check (sub : string) (songs : list Song) :
  forallb (fun s => negb (str_contains sub (name s))) songs = true ->
  forall s, s ∈ songs -> ~ has_substring sub (name s).
Proof.
  rewrite forallb_forall. intros Hall s Hin Hsub.
  apply list_elem_of_In in Hin. specialize (Hall s Hin).
  apply str_contains_spec in Hsub. rewrite Hsub in Hall. discriminate.
Qed.

(** * The claims *)

(** C1: the docstring of [generateSetlist] promises three groups of 5 and
    one of 6, 21 songs in all, and the specification asks for an error when the
    winning sequence has another length.  The code checks nothing: for the
    three songs "a", "Bouncy (joint)" and "01 This World", no guests and
    one trial, the winning sequence has 3 items, and both the slicing step
    and the whole call return groups of sizes 3, 0, 0, 0 with no error. *)
Theorem C1_short_sequence_is_grouped_without_error :
  let songs := [Examples.A; Examples.bouncy; Examples.this_world] in
  let groups := [songs; []; []; []] in
  length songs = 3%nat
  /\ split_groups (Some songs) = inr groups
  /\ generateSetlist Examples.keep_order songs [] 1 tt = (inr groups, tt)
  /\ length <$> groups = [3; 0; 0; 0]%nat
  /\ length (concat groups) <> 21%nat.
Proof.
  cbv zeta. split; [reflexivity|].
  split; [vm_compute; reflexivity|].
  split; [vm_compute; reflexivity|].
  split; [reflexivity|cbn; lia].
Qed.

(** C2: for every sequence, [calculate_setlist_score] is the negation of
    the sum, over the position pairs [(i, j)] with [j] in
    [{i+1, i+2, i+3}] and [j] inside the sequence (each pair once), of
    [|performers(s[i]) ∩ performers(s[j])| * (4 - (j - i)) * 10]. *)
Theorem C2_score_is_negated_penalty_sum (s : list Song) :
  calculate_setlist_score s
  = - Zsum (pair_penalty s <$> near_pairs (length s))
  /\ NoDup (near_pairs (length s))
  /\ (forall i j : nat,
        (i, j) ∈ near_pairs (length s)
        <-> (i < j <= i + 3 /\ j < length s)%nat).
Proof.
  split; [apply score_eq_spec|].
  split; [apply near_pairs_NoDup|].
  intros i j. apply near_pairs_spec.
Qed.

(** C3: for bounds [start_idx <= end_idx], [find_best_position_for_song]
    returns a position in [start_idx, end_idx] whose window score is the
    greatest among the candidates, and every candidate before it has a
    strictly smaller window score: it is the smallest maximizer. *)
Theorem C3_best_position_is_first_maximum
    (partial_setlist : list Song) (song : Song) (start_idx end_idx : Z) :
  start_idx <= end_idx ->
  let p := find_best_position_for_song partial_setlist song start_idx end_idx in
  start_idx <= p <= end_idx
  /\ (forall q, start_idx <= q <= end_idx ->
        window_score partial_setlist song q <= window_score partial_setlist song p)
  /\ (forall q, start_idx <= q < p ->
        window_score partial_setlist song q < window_score partial_setlist song p).
Proof.
  intros Hle p. subst p. rewrite find_best_position_scan.
  replace (Z.to_nat (end_idx + 1 - start_idx))
    with (S (Z.to_nat (end_idx - start_idx))) by lia.
  pose proof (scan_inv (window_score partial_setlist song) start_idx
                (Z.to_nat (end_idx - start_idx))) as H.
  cbv zeta in H. destruct H as (_ & Hrange & Hmax & Hfirst).
  repeat split; try lia.
  - intros q Hq. apply Hmax. lia.
  - apply Hfirst.
Qed.

Lemma C3_best_position_witness :
  0 <= 2
  /\ let l := [Examples.A; Examples.B] in
     let p := find_best_position_for_song l Examples.C 0 2 in
     0 <= p <= 2
     /\ (forall q, 0 <= q <= 2 ->
           window_score l Examples.C q <= window_score l Examples.C p)
     /\ (forall q, 0 <= q < p ->
           window_score l Examples.C q < window_score l Examples.C p).
Proof.
  split; [lia|].
  apply (C3_best_position_is_first_maximum
           [Examples.A; Examples.B] Examples.C 0 2). lia.
Defined.

(** C4: when no song name contains "Bouncy", or none contains
    "This World", [generateSetlist] raises the [ValueError] whatever the
    number of trials, and no trial has run: the generator state is the
    one it was given, so no shuffle was drawn, and on the store the heap
    is the one it was given, so no list was copied or built. *)
Theorem C4_missing_anchor_fails_before_trials {RNG}
    (random_perm : RNG -> nat -> list nat * RNG)
    (songs guest_performances : list Song) (iterations : Z) (g : RNG) :
  (forall s, s ∈ songs -> ~ has_substring "Bouncy" (name s))
  \/ (forall s, s ∈ songs -> ~ has_substring "This World" (name s)) ->
  generateSetlist random_perm songs guest_performances iterations g
  = (inl (ValueError "Bouncy and This World must be in the song list"), g)
  /\ forall (h0 : gmap Obj.loc Obj.obj) (songs_ref guests_ref : Obj.loc)
        (refs : list Obj.loc),
       h0 !! songs_ref = Some (Obj.ListObj refs) ->
       StoreSpec.deref h0 refs songs ->
       Store.generateSetlist random_perm songs_ref guests_ref iterations
         (Obj.World h0 g)
       = (inl (ValueError "Bouncy and This World must be in the song list"),
          Obj.World h0 g).
Proof.
  intros Hno.
  assert (Hnone : find_song "Bouncy" songs = None
                  \/ find_song "This World" songs = None).
  { destruct Hno as [Hno|Hno]; [left|right]; apply find_song_none, Hno. }
  split.
  - unfold generateSetlist. destruct Hnone as [-> | ->]; [reflexivity|].
    destruct (find_song "Bouncy" songs); reflexivity.
  - intros h0 songs_ref guests_ref refs Hsongs Ds.
    eapply StoreRuns.run_generateSetlist_no_anchor; eassumption.
Qed.

Lemma C4_missing_anchor_witness :
  let songs := [Examples.A; Examples.B; Examples.this_world] in
  let msg := "Bouncy and This World must be in the song list" in
  generateSetlist Examples.keep_order songs [Examples.guest1] 1000 tt
  = (inl (ValueError msg), tt)
  /\ Store.generateSetlist Examples.keep_order 10%nat 11%nat 1000
       (Obj.World Examples.heap1 tt)
     = (inl (ValueError msg), Obj.World Examples.heap1 tt).
Proof.
  cbv zeta.
  pose proof (C4_missing_anchor_fails_before_trials Examples.keep_order
                [Examples.A; Examples.B; Examples.this_world]
                [Examples.guest1] 1000 tt) as [Hpure Hstore].
  { left. apply no_substring_check. vm_compute. reflexivity. }
  split; [exact Hpure|].
  apply (Hstore Examples.heap1 10%nat 11%nat [0; 2; 3]%nat).
  - vm_compute. reflexivity.
  - repeat constructor.
Defined.

(** C5: whatever the pools are, the sequence a trial builds is some body
    followed by the two anchors, the first "Bouncy" match and then the
    first "This World" match. *)
Theorem C5_anchors_close_every_trial {RNG}
    (random_perm : RNG -> nat -> list nat * RNG)
    (songs guest_performances : list Song) (bouncy this_world : Song) (g : RNG) :
  find_song "Bouncy" songs = Some bouncy ->
  find_song "This World" songs = Some this_world ->
  has_substring "Bouncy" (name bouncy)
  /\ has_substring "This World" (name this_world)
  /\ exists body,
       (run_trial random_perm (available_songs songs bouncy this_world)
          guest_performances bouncy this_world g).1
       = body ++ [bouncy; this_world].
Proof.
  intros Hb Ht.
  split; [apply (find_song_some _ _ _ Hb)|].
  split; [apply (find_song_some _ _ _ Ht)|].
  destruct (run_trial_spec random_perm (available_songs songs bouncy this_world)
              guest_performances bouncy this_world g) as (body & Hbody & _).
  exists body. exact Hbody.
Qed.

Lemma C5_anchors_witness :
  has_substring "Bouncy" (name Examples.bouncy)
  /\ has_substring "This World" (name Examples.this_world)
  /\ exists body,
       (run_trial Examples.reversing
          (available_songs
             [Examples.A; Examples.bouncy; Examples.B; Examples.this_world]
             Examples.bouncy Examples.this_world)
          [Examples.guest1] Examples.bouncy Examples.this_world tt).1
       = body ++ [Examples.bouncy; Examples.this_world].
Proof.
  apply (C5_anchors_close_every_trial Examples.reversing
           [Examples.A; Examples.bouncy; Examples.B; Examples.this_world]);
    reflexivity.
Defined.

(** C6: the guest loop, entered at guest ordinal [g] with the working
    sequence [setlist], returns the state that [guest_passes] passes of
    [guest_step] reach from [(setlist, g)]: every pass puts the guest at
    the current ordinal at position
    [floor(currentLength * (ordinal + 1) / (guestCount + 1))] of the
    current working sequence, with no score computed, and advances the
    ordinal by one.  So the returned sequence has [guest_passes] more items
    and the returned ordinal is [g + guest_passes].  While the working
    sequence has fewer than 19 items and [g] is below the number of guests,
    the next working sequence holds the guest of ordinal [g] at that
    position, between the items before and after it in their old order,
    and the loop goes on from ordinal [g + 1]; otherwise the loop returns
    its state as it is. *)
Theorem C6_guest_goes_to_formula_position
    (fuel : nat) (guest_performances setlist : list Song) (g : nat) :
  (length guest_performances - g <= fuel)%nat ->
  let result := place_guests fuel guest_performances setlist (Z.of_nat g) in
  let passes := guest_passes guest_performances setlist g in
  result = Nat.iter passes (guest_step guest_performances)
             (setlist, Z.of_nat g)
  /\ length result.1 = (length setlist + passes)%nat
  /\ result.2 = Z.of_nat (g + passes)
  /\ (Py.len setlist < total_needed ->
      (g < length guest_performances)%nat ->
      exists guest,
        guest_performances !! g = Some guest
        /\ let p := Z.to_nat (Py.len setlist * (Z.of_nat g + 1)
                              / (Py.len guest_performances + 1)) in
           let next := take p setlist ++ guest :: drop p setlist in
           (p <= length setlist)%nat
           /\ next !! p = Some guest
           /\ guest_step guest_performances (setlist, Z.of_nat g)
              = (next, Z.of_nat g + 1)
           /\ forall fuel',
                (length guest_performances - S g <= fuel')%nat ->
                result
                = place_guests fuel' guest_performances next (Z.of_nat g + 1))
  /\ (~ (Py.len setlist < total_needed
         /\ (g < length guest_performances)%nat) ->
      result = (setlist, Z.of_nat g)).
Proof.
  intros Hfuel result passes.
  pose proof (place_guests_spec fuel guest_performances setlist g Hfuel)
    as [Hperm Hidx].
  split; [apply place_guests_iter, Hfuel|].
  split.
  { subst result passes. rewrite (Permutation_length Hperm).
    rewrite length_app, length_take, length_drop.
    unfold guest_passes. lia. }
  split; [exact Hidx|].
  split.
  - intros Hlen Hg.
    destruct (lookup_lt_is_Some_2 guest_performances g Hg) as [guest Hguest].
    exists guest. split; [exact Hguest|]. cbv zeta.
    pose proof (ideal_pos_in_range guest_performances setlist g Hg) as Hpos.
    set (p := Z.to_nat _).
    assert (Hp : (p <= length setlist)%nat)
      by (subst p; unfold Py.len in *; lia).
    split; [exact Hp|].
    split.
    { rewrite lookup_app_r by (rewrite length_take; lia).
      rewrite length_take.
      replace (p - p `min` length setlist)%nat with 0%nat by lia.
      reflexivity. }
    split.
    { cbn [guest_step]. rewrite Nat2Z.id, Hguest. reflexivity. }
    intros fuel' Hfuel'. subst result.
    rewrite place_guests_fuel by exact Hfuel.
    replace (length guest_performances - g)%nat
      with (S (length guest_performances - S g)) by lia.
    rewrite (place_guests_step _ _ _ _ Hlen Hg). cbv zeta.
    cbn [guest_step]. rewrite Nat2Z.id, Hguest. cbv zeta. cbn [fst snd].
    fold p.
    replace (Z.of_nat g + 1) with (Z.of_nat (S g)) by lia.
    rewrite (place_guests_fuel fuel') by exact Hfuel'. reflexivity.
  - intros Hno. subst result. apply place_guests_exit.
    unfold total_needed, Py.len in *. apply andb_false_iff.
    destruct (Z.ltb_spec (Z.of_nat (length setlist)) 19);
      [right|left; reflexivity].
    apply Z.ltb_ge. lia.
Qed.

Lemma C6_guest_witness :
  place_guests 1 [Examples.guest1] [Examples.C; Examples.B; Examples.A]
    (Z.of_nat 0)
  = Nat.iter
      (guest_passes [Examples.guest1] [Examples.C; Examples.B; Examples.A] 0)
      (guest_step [Examples.guest1])
      ([Examples.C; Examples.B; Examples.A], Z.of_nat 0)
  /\ Nat.iter
       (guest_passes [Examples.guest1] [Examples.C; Examples.B; Examples.A] 0)
       (guest_step [Examples.guest1])
       ([Examples.C; Examples.B; Examples.A], Z.of_nat 0)
     = ([Examples.C; Examples.guest1; Examples.B; Examples.A], 1).
Proof.
  split; [|reflexivity].
  assert (Hfuel : (length [Examples.guest1] - 0 <= 1)%nat) by (cbn; lia).
  exact (proj1 (C6_guest_goes_to_formula_position 1 [Examples.guest1]
                  [Examples.C; Examples.B; Examples.A] 0 Hfuel)).
Defined.

(** C7: the score of every sequence is at most 0, and it is 0 exactly when
    no two items at distance at most 3 share a performer. *)
Theorem C7_score_nonpositive_and_zero_iff_no_overlap (s : list Song) :
  calculate_setlist_score s <= 0
  /\ (calculate_setlist_score s = 0 <-> no_near_overlap s).
Proof.
  split.
  { rewrite score_eq_spec. unfold spec_score.
    pose proof (Zsum_nonneg _ (penalties_nonneg s)). lia. }
  rewrite score_eq_spec. unfold spec_score. split.
  - intros Hz i j a b Hij Ha Hb.
    assert (Hsum : Zsum (pair_penalty s <$> near_pairs (length s)) = 0) by lia.
    apply Zsum_zero in Hsum; [|apply penalties_nonneg].
    rewrite Forall_fmap, Forall_forall in Hsum.
    assert (Hin : (i, j) ∈ near_pairs (length s)).
    { apply near_pairs_spec. split; [exact Hij|]. eapply lookup_lt_Some, Hb. }
    specialize (Hsum _ Hin). cbn beta in Hsum.
    unfold compose in Hsum.
    rewrite (pair_penalty_lookup s i j a b Ha Hb) in Hsum.
    assert (Hsz : size (performers a ∩ performers b) = 0%nat) by nia.
    apply size_empty_inv in Hsz. apply leibniz_equiv, Hsz.
  - intros Hno.
    enough (Zsum (pair_penalty s <$> near_pairs (length s)) = 0) by lia.
    assert (Hall : Forall (fun z => z = 0) (pair_penalty s <$> near_pairs (length s))).
    { apply Forall_fmap, Forall_forall. intros [i j] Hp.
      apply near_pairs_spec in Hp as [Hij Hn].
      unfold compose, pair_penalty. cbn [fst snd].
      destruct (s !! i) as [a|] eqn:Ha; [|reflexivity].
      destruct (s !! j) as [b|] eqn:Hb; [|reflexivity].
      rewrite (Hno i j a b Hij Ha Hb), size_empty. lia. }
    induction Hall as [|x l Hx Hl IH]; [reflexivity|].
    rewrite Zsum_cons. lia.
Qed.

(** C8: from one generator state, the best score after [N + 1] trials is
    never below the best score after the first [N] of them, and when the
    score of trial [N + 1] equals the best so far the best sequence stays
    the one an earlier trial built. *)
Theorem C8_best_score_never_decreases {RNG}
    (random_perm : RNG -> nat -> list nat * RNG)
    (songs guest_performances : list Song) (bouncy this_world : Song)
    (g : RNG) (N : nat) :
  let run n :=
    optimize random_perm songs guest_performances bouncy this_world
      (Z.of_nat n) g in
  let trial :=
    run_trial random_perm (available_songs songs bouncy this_world)
      guest_performances bouncy this_world (rng (run N)) in
  score_le (best_score (run N)) (best_score (run (S N)))
  /\ (best_score (run N) = Fin (calculate_setlist_score trial.1) ->
      best_setlist (run (S N)) = best_setlist (run N)
      /\ best_score (run (S N)) = best_score (run N)).
Proof.
  cbv zeta. unfold optimize. rewrite !Nat2Z.id. rewrite trials_loop_S.
  set (st := trials_loop N _ _). split.
  - apply trial_step_mono.
  - intros Htie.
    pose proof (trial_step_cases random_perm
                  (available_songs songs bouncy this_world)
                  guest_performances bouncy this_world st) as [_ H].
    cbv zeta in H. rewrite <- Htie, score_gt_irrefl in H. exact H.
Qed.

Lemma C8_tie_witness :
  let songs := [Examples.X1; Examples.bouncy; Examples.X2; Examples.this_world] in
  let run n :=
    optimize Examples.keep_then_reverse songs [] Examples.bouncy
      Examples.this_world (Z.of_nat n) 0%nat in
  best_setlist (run 2%nat)
  = Some [Examples.X2; Examples.X1; Examples.bouncy; Examples.this_world]
  /\ (run_trial Examples.keep_then_reverse
        (available_songs songs Examples.bouncy Examples.this_world) []
        Examples.bouncy Examples.this_world (rng (run 1%nat))).1
     = [Examples.X1; Examples.X2; Examples.bouncy; Examples.this_world].
Proof.
  cbv zeta. split; [|vm_compute; reflexivity].
  refine (eq_trans
    (proj1 (proj2 (C8_best_score_never_decreases Examples.keep_then_reverse
       [Examples.X1; Examples.bouncy; Examples.X2; Examples.this_world] []
       Examples.bouncy Examples.this_world 0%nat 1%nat) _)) _);
    vm_compute; reflexivity.
Defined.

(** C9: a call of [generateSetlist] leaves every object that was on the
    heap when it started as it was: the caller's list of songs, the list
    of guest performances and every song dict, whether the call returns
    or raises. *)
Theorem C9_call_leaves_callers_objects {RNG}
    (random_perm : RNG -> nat -> list nat * RNG)
    (songs guest_performances : Obj.loc) (iterations : Z)
    (w : Obj.world RNG) (l : Obj.loc) (o : Obj.obj) :
  Obj.heap w !! l = Some o ->
  Obj.heap (Store.generateSetlist random_perm songs guest_performances
                iterations w).2 !! l = Some o.
Proof.
  intros Hl.
  destruct (StoreFacts.keeps_generateSetlist random_perm (Obj.heap w)
              songs guest_performances iterations w) as [Hsub _];
    [reflexivity|].
  eapply lookup_weaken; [exact Hl|exact Hsub].
Qed.

Lemma C9_songs_list_witness :
  Obj.heap (Store.generateSetlist Examples.keep_order 10%nat 11%nat 2
                (Obj.World Examples.heap0 tt)).2 !! 10%nat
  = Some (Obj.ListObj [0; 1; 2; 3]%nat).
Proof.
  apply (C9_call_leaves_callers_objects Examples.keep_order 10%nat 11%nat 2
           (Obj.World Examples.heap0 tt) 10%nat).
  vm_compute. reflexivity.
Defined.

(** C10: when the shuffle only rearranges, the sequence a trial builds has
    [min(19, |available| + |guests|) + 2] items, and it is a rearrangement
    of the items taken from the pools: the songs taken from the front of
    the shuffled pool, the guests taken from the front of the guest pool,
    and the two anchors; none is repeated or lost. *)
Theorem C10_trial_length_and_items {RNG}
    (random_perm : RNG -> nat -> list nat * RNG)
    (songs guest_performances : list Song) (bouncy this_world : Song) (g : RNG) :
  rearranges random_perm ->
  let available := available_songs songs bouncy this_world in
  let shuffled := (shuffle random_perm g available).1 in
  let built :=
    (run_trial random_perm available guest_performances bouncy this_world g).1 in
  length built
  = (Nat.min 19 (length available + length guest_performances) + 2)%nat
  /\ shuffled ≡ₚ available
  /\ built ≡ₚ take (songs_taken shuffled) shuffled
              ++ take (guests_taken shuffled guest_performances)
                   guest_performances
              ++ [bouncy; this_world].
Proof.
  intros Hperm available shuffled built.
  split; [apply (run_trial_length random_perm), Hperm|].
  split; [apply shuffle_perm, Hperm|].
  destruct (run_trial_spec random_perm available guest_performances bouncy
              this_world g) as (body & Hbuilt & Hbody).
  subst built. rewrite Hbuilt, Hbody, <- app_assoc. reflexivity.
Qed.

Lemma C10_trial_witness :
  let available :=
    available_songs
      [Examples.A; Examples.bouncy; Examples.B; Examples.C; Examples.this_world]
      Examples.bouncy Examples.this_world in
  let shuffled := (shuffle Examples.reversing tt available).1 in
  let built :=
    (run_trial Examples.reversing available [Examples.guest1] Examples.bouncy
       Examples.this_world tt).1 in
  length built = (Nat.min 19 (length available + 1) + 2)%nat
  /\ shuffled ≡ₚ available
  /\ built ≡ₚ take (songs_taken shuffled) shuffled
              ++ take (guests_taken shuffled [Examples.guest1])
                   [Examples.guest1]
              ++ [Examples.bouncy; Examples.this_world].
Proof.
  apply (C10_trial_length_and_items Examples.reversing
           [Examples.A; Examples.bouncy; Examples.B; Examples.C;
            Examples.this_world]
           [Examples.guest1] Examples.bouncy Examples.this_world tt).
  intros g n. cbn [Examples.reversing fst]. symmetry. apply Permutation_rev.
Defined.

(** * Further properties *)

(** ** The score of a reversed sequence *)

Lemma Zsum_Permutation l k : l ≡ₚ k -> Zsum l = Zsum k.
Proof.
  induction 1 as [|x l k _ IH|x y l|l k m _ IH1 _ IH2];
    rewrite ?Zsum_cons; try lia; congruence.
Qed.

(** The pair at the mirrored positions of a sequence of length [n]. *)
Lemma mirror_near_pairs (n : nat) (p : nat * nat) :
  p ∈ near_pairs n -> (n - 1 - p.2, n - 1 - p.1)%nat ∈ near_pairs n.
Proof. destruct p as [i j]. rewrite !near_pairs_spec. cbn [fst snd]. lia. Qed.

Lemma mirror_near_pairs_perm (n : nat) :
  (fun p : nat * nat => (n - 1 - p.2, n - 1 - p.1)%nat) <$> near_pairs n
  ≡ₚ near_pairs n.
Proof.
  apply NoDup_Permutation.
  - apply NoDup_fmap_2_strong; [|apply near_pairs_NoDup].
    intros [i j] [i' j'] Hp Hp' [= H1 H2].
    apply near_pairs_spec in Hp, Hp'. f_equal; lia.
  - apply near_pairs_NoDup.
  - intros [i j]. rewrite list_elem_of_fmap. split.
    + intros (p & -> & Hp). apply mirror_near_pairs, Hp.
    + intros Hp. exists (n - 1 - j, n - 1 - i)%nat. split.
      * apply near_pairs_spec in Hp. cbn [fst snd]. f_equal; lia.
      * apply (mirror_near_pairs n (i, j)), Hp.
Qed.

Lemma pair_penalty_reverse (s : list Song) (p : nat * nat) :
  p ∈ near_pairs (length s) ->
  pair_penalty (reverse s) p
  = pair_penalty s (length s - 1 - p.2, length s - 1 - p.1)%nat.
Proof.
  destruct p as [i j]. rewrite near_pairs_spec. intros [Hij Hn].
  unfold pair_penalty. cbn [fst snd].
  rewrite !reverse_lookup by lia.
  replace (length s - S i)%nat with (length s - 1 - i)%nat by lia.
  replace (length s - S j)%nat with (length s - 1 - j)%nat by lia.
  destruct (lookup_lt_is_Some_2 s (length s - 1 - i)%nat) as [a Ha]; [lia|].
  destruct (lookup_lt_is_Some_2 s (length s - 1 - j)%nat) as [b Hb]; [lia|].
  rewrite Ha, Hb. rewrite (comm_L (∩) (performers a)).
  f_equal. f_equal. lia.
Qed.

(** X1: reversing a sequence does not change its score: the overlap of two
    songs and their distance are the same read from either end. *)
Theorem X1_score_of_reversed_sequence (s : list Song) :
  calculate_setlist_score (reverse s) = calculate_setlist_score s.
Proof.
  rewrite !score_eq_spec. unfold spec_score. rewrite length_reverse. f_equal.
  rewrite <- (Zsum_Permutation _ _
                (fmap_Permutation (pair_penalty s) _ _
                   (mirror_near_pairs_perm (length s)))).
  rewrite <- list_fmap_compose. f_equal.
  apply list_fmap_ext. intros k p Hp.
  apply pair_penalty_reverse. eapply list_elem_of_lookup_2, Hp.
Qed.

(** ** Overlaps *)

(** X2: the overlap of two songs does not depend on their order, it is at
    most the number of performers of either song, and it is 0 exactly when
    they share no performer. *)
Theorem X2_overlap_symmetric_and_bounded (a b : Song) :
  calculate_overlap a b = calculate_overlap b a
  /\ 0 <= calculate_overlap a b
  /\ calculate_overlap a b <= Z.of_nat (size (performers a))
  /\ calculate_overlap a b <= Z.of_nat (size (performers b))
  /\ (calculate_overlap a b = 0 <-> performers a ## performers b).
Proof.
  unfold calculate_overlap.
  split; [rewrite (comm_L (∩)); reflexivity|].
  split; [lia|].
  split; [apply inj_le, subseteq_size, intersection_subseteq_l|].
  split; [apply inj_le, subseteq_size, intersection_subseteq_r|].
  rewrite disjoint_intersection_L. split.
  - intros H. assert (Hsz : size (performers a ∩ performers b) = 0%nat) by lia.
    apply leibniz_equiv, size_empty_inv, Hsz.
  - intros ->. rewrite size_empty. reflexivity.
Qed.

(** ** The edges of the search and of the trial loop *)

(** X3: with [end_idx < start_idx] no candidate is tried and
    [find_best_position_for_song] returns [start_idx], whatever the
    sequence and the song are. *)
Theorem X3_empty_range_returns_start
    (partial_setlist : list Song) (song : Song) (start_idx end_idx : Z) :
  end_idx < start_idx ->
  find_best_position_for_song partial_setlist song start_idx end_idx
  = start_idx.
Proof.
  intros Hlt. rewrite find_best_position_scan.
  replace (Z.to_nat (end_idx + 1 - start_idx)) with 0%nat by lia.
  reflexivity.
Qed.

Lemma X3_empty_range_witness :
  find_best_position_for_song [Examples.A; Examples.B] Examples.C 5 2 = 5.
Proof.
  apply (X3_empty_range_returns_start [Examples.A; Examples.B] Examples.C 5 2).
  lia.
Defined.

(** X4: with both anchors present and [iterations <= 0] no trial runs,
    [best_setlist] is still [None] when it is sliced, and the call raises
    a [TypeError]; the generator has not moved. *)
Theorem X4_no_iterations_type_error {RNG}
    (random_perm : RNG -> nat -> list nat * RNG)
    (songs guest_performances : list Song) (iterations : Z) (g : RNG)
    (bouncy this_world : Song) :
  find_song "Bouncy" songs = Some bouncy ->
  find_song "This World" songs = Some this_world ->
  iterations <= 0 ->
  generateSetlist random_perm songs guest_performances iterations g
  = (inl (TypeError "'NoneType' object is not subscriptable"), g).
Proof.
  intros Hb Ht Hit. unfold generateSetlist, optimize. rewrite Hb, Ht.
  replace (Z.to_nat iterations) with 0%nat by lia. reflexivity.
Qed.

Lemma X4_no_iterations_witness :
  generateSetlist Examples.reversing
    [Examples.A; Examples.bouncy; Examples.B; Examples.this_world]
    [Examples.guest1] (-3) tt
  = (inl (TypeError "'NoneType' object is not subscriptable"), tt).
Proof.
  apply (X4_no_iterations_type_error Examples.reversing
           [Examples.A; Examples.bouncy; Examples.B; Examples.this_world]
           [Examples.guest1] (-3) tt Examples.bouncy Examples.this_world);
    [reflexivity|reflexivity|lia].
Defined.

(** ** The shape of the result and where its items come from *)

Lemma shuffle_elem {RNG A} (random_perm : RNG -> nat -> list nat * RNG)
    (g : RNG) (l : list A) (x : A) :
  x ∈ (shuffle random_perm g l).1 -> x ∈ l.
Proof.
  unfold shuffle. destruct (random_perm g (length l)) as [idx g'].
  cbn [fst]. rewrite list_elem_of_omap. intros (i & _ & Hi).
  eapply list_elem_of_lookup_2, Hi.
Qed.

Lemma available_songs_elem (songs : list Song) (b t s : Song) :
  s ∈ available_songs songs b t -> s ∈ songs.
Proof.
  unfold available_songs. rewrite !list_elem_of_In, filter_In. tauto.
Qed.

Lemma four_slices_elem (l grp : list Song) (s : Song) :
  grp ∈ four_slices l -> s ∈ grp -> s ∈ l.
Proof.
  unfold four_slices. rewrite !elem_of_cons, elem_of_nil.
  intros [->|[->|[->|[->|[]]]]] Hs;
    repeat (apply subseteq_take in Hs || apply subseteq_drop in Hs);
    exact Hs.
Qed.

Lemma four_slices_full (body : list Song) (b t : Song) :
  length body = 19%nat ->
  four_slices (body ++ [b; t])
  = [take 5 body; take 5 (drop 5 body); take 5 (drop 10 body);
     drop 15 body ++ [b; t]].
Proof.
  intros Hlen. unfold four_slices.
  rewrite !drop_app_le by lia.
  rewrite !take_app_le by (rewrite ?length_drop; lia).
  rewrite (take_ge (drop 15 body ++ [b; t]));
    [reflexivity|rewrite length_app, length_drop; cbn [length]; lia].
Qed.

(** X5: with both anchors, at least one trial and at least 19 pool and
    guest items, the result is four groups of 5, 5, 5 and 6 items, and
    the last two items of the last group are the "Bouncy" match and then
    the "This World" match. *)
Theorem X5_full_pool_gives_5_5_5_6 {RNG}
    (random_perm : RNG -> nat -> list nat * RNG)
    (songs guest_performances : list Song) (iterations : Z) (g : RNG)
    (bouncy this_world : Song) :
  rearranges random_perm ->
  find_song "Bouncy" songs = Some bouncy ->
  find_song "This World" songs = Some this_world ->
  1 <= iterations ->
  (19 <= length (available_songs songs bouncy this_world)
         + length guest_performances)%nat ->
  exists g1 g2 g3 g4,
    (generateSetlist random_perm songs guest_performances iterations g).1
    = inr [g1; g2; g3; g4 ++ [bouncy; this_world]]
    /\ length g1 = 5%nat /\ length g2 = 5%nat /\ length g3 = 5%nat
    /\ length g4 = 4%nat.
Proof.
  intros Hperm Hb Ht Hit Hpool.
  unfold generateSetlist, optimize. rewrite Hb, Ht. cbn [fst].
  replace (Z.to_nat iterations) with (S (Z.to_nat (iterations - 1))) by lia.
  destruct (trials_loop_best random_perm (available_songs songs bouncy this_world)
              guest_performances bouncy this_world
              (Z.to_nat (iterations - 1)) g) as (g0 & Hbest & _).
  rewrite Hbest. clear Hbest.
  pose proof (run_trial_length random_perm
                (available_songs songs bouncy this_world) guest_performances
                bouncy this_world g0 Hperm) as Hlen.
  destruct (run_trial_spec random_perm
              (available_songs songs bouncy this_world) guest_performances
              bouncy this_world g0) as (body & Hbody & _).
  rewrite Hbody in *. rewrite length_app in Hlen. cbn [length] in Hlen.
  assert (Hbody19 : length body = 19%nat) by lia.
  rewrite split_groups_slices, (four_slices_full _ _ _ Hbody19).
  exists (take 5 body), (take 5 (drop 5 body)), (take 5 (drop 10 body)),
         (drop 15 body).
  split; [reflexivity|].
  rewrite !length_take, !length_drop. lia.
Qed.

(** ** Which trial wins *)

Section WhichTrial.

Context {RNG : Type} (random_perm : RNG -> nat -> list nat * RNG).
Context (songs guest_performances : list Song) (bouncy this_world : Song).

Lemma optimize_S (N : nat) (g : RNG) :
  optimize random_perm songs guest_performances bouncy this_world
    (Z.of_nat (S N)) g
  = trial_step random_perm (available_songs songs bouncy this_world)
      guest_performances bouncy this_world
      (optimize random_perm songs guest_performances bouncy this_world
         (Z.of_nat N) g).
Proof. unfold optimize. rewrite !Nat2Z.id. apply trials_loop_S. Qed.

Lemma optimize_S_cases (N : nat) (g : RNG) :
  let st :=
    optimize random_perm songs guest_performances bouncy this_world
      (Z.of_nat N) g in
  let st' :=
    optimize random_perm songs guest_performances bouncy this_world
      (Z.of_nat (S N)) g in
  let built :=
    trial_built random_perm songs guest_performances bouncy this_world g N in
  if score_gt (Fin (calculate_setlist_score built)) (best_score st)
  then best_setlist st' = Some built
       /\ best_score st' = Fin (calculate_setlist_score built)
  else best_setlist st' = best_setlist st /\ best_score st' = best_score st.
Proof.
  cbv zeta. rewrite optimize_S. unfold trial_built.
  apply (trial_step_cases random_perm).
Qed.

End WhichTrial.

Lemma X5_full_pool_witness :
  exists g1 g2 g3 g4,
    (generateSetlist Examples.reversing Examples.songs21 [Examples.guest1]
       3 tt).1
    = inr [g1; g2; g3; g4 ++ [Examples.bouncy; Examples.this_world]]
    /\ length g1 = 5%nat /\ length g2 = 5%nat /\ length g3 = 5%nat
    /\ length g4 = 4%nat.
Proof.
  apply (X5_full_pool_gives_5_5_5_6 Examples.reversing Examples.songs21
           [Examples.guest1] 3 tt Examples.bouncy Examples.this_world).
  - intros g n. cbn [Examples.reversing fst]. symmetry. apply Permutation_rev.
  - vm_compute. reflexivity.
  - vm_compute. reflexivity.
  - lia.
  - vm_compute. lia.
Defined.

(** X6: after [N + 1] trials the best sequence is the one built by the
    first trial whose score is the greatest of all [N + 1]: no trial
    scored more, every earlier trial scored strictly less, and the
    recorded best score is that trial's score. *)
Theorem X6_best_is_first_best_trial {RNG}
    (random_perm : RNG -> nat -> list nat * RNG)
    (songs guest_performances : list Song) (bouncy this_world : Song)
    (g : RNG) (N : nat) :
  let st :=
    optimize random_perm songs guest_performances bouncy this_world
      (Z.of_nat (S N)) g in
  let score k :=
    calculate_setlist_score
      (trial_built random_perm songs guest_performances bouncy this_world g k) in
  exists k,
    (k <= N)%nat
    /\ best_setlist st
       = Some (trial_built random_perm songs guest_performances bouncy
                 this_world g k)
    /\ best_score st = Fin (score k)
    /\ (forall j, (j <= N)%nat -> score j <= score k)
    /\ (forall j, (j < k)%nat -> score j < score k).
Proof.
  cbv zeta. induction N as [|N IH].
  - pose proof (optimize_S_cases random_perm songs guest_performances bouncy
                  this_world 0 g) as H.
    cbv zeta in H. change (Z.of_nat 0) with 0 in H at 1.
    cbn [optimize Z.to_nat trials_loop best_score score_gt] in H.
    destruct H as [Hset Hscore].
    exists 0%nat. split; [lia|]. split; [exact Hset|]. split; [exact Hscore|].
    split; [|intros j Hj; lia].
    intros j Hj. replace j with 0%nat by lia. lia.
  - destruct IH as (k & Hk & Hset & Hscore & Hmax & Hfirst).
    pose proof (optimize_S_cases random_perm songs guest_performances bouncy
                  this_world (S N) g) as H.
    cbv zeta in H. rewrite Hscore in H. cbn [score_gt] in H.
    destruct (Z.ltb_spec
                (calculate_setlist_score
                   (trial_built random_perm songs guest_performances bouncy
                      this_world g k))
                (calculate_setlist_score
                   (trial_built random_perm songs guest_performances bouncy
                      this_world g (S N)))) as [Hlt|Hge].
    + destruct H as [Hset' Hscore']. exists (S N).
      split; [lia|]. split; [exact Hset'|]. split; [exact Hscore'|]. split.
      * intros j Hj. destruct (decide (j = S N)) as [->|Hne]; [lia|].
        specialize (Hmax j). lia.
      * intros j Hj. specialize (Hmax j). lia.
    + destruct H as [Hset' Hscore']. exists k.
      split; [lia|]. split; [congruence|]. split; [congruence|]. split.
      * intros j Hj. destruct (decide (j = S N)) as [->|Hne]; [lia|].
        apply Hmax. lia.
      * exact Hfirst.
Qed.

(** ** Guests only fill up *)

Lemma place_guests_full fuel (guest_performances setlist : list Song) guest_idx :
  total_needed <= Py.len setlist ->
  place_guests fuel guest_performances setlist guest_idx
  = (setlist, guest_idx).
Proof.
  intros Hfull. destruct fuel as [|fuel]; [reflexivity|].
  cbn [place_guests].
  destruct (Z.ltb_spec (Py.len setlist) total_needed); [lia|]. reflexivity.
Qed.

Lemma build_setlist_enough_songs (shuffled guest_performances : list Song)
    (bouncy this_world : Song) :
  (19 <= length shuffled)%nat ->
  build_setlist shuffled guest_performances bouncy this_world
  = build_setlist shuffled [] bouncy this_world.
Proof.
  intros Hlen. unfold build_setlist.
  pose proof (place_songs_spec shuffled []) as Hs. cbv zeta in Hs.
  destruct (place_songs [] shuffled) as [setlist rest].
  cbn [fst snd length] in Hs. destruct Hs as [Hs _].
  apply Permutation_length in Hs.
  rewrite app_nil_l, length_take in Hs.
  rewrite !place_guests_full; [reflexivity| |];
    unfold total_needed, Py.len; lia.
Qed.

Lemma trials_loop_ext {RNG} (n : nat) (f f' : opt_state RNG -> opt_state RNG) st :
  (forall st, f st = f' st) -> trials_loop n f st = trials_loop n f' st.
Proof.
  intros Hext. revert st. induction n as [|n IH]; intros st; [reflexivity|].
  cbn [trials_loop]. rewrite Hext. apply IH.
Qed.

(** X7: when at least 19 songs are left after the anchors are taken out,
    the guest performances play no part: the call returns what it returns
    with no guests at all. *)
Theorem X7_guests_unused_with_19_songs {RNG}
    (random_perm : RNG -> nat -> list nat * RNG)
    (songs guest_performances : list Song) (iterations : Z) (g : RNG)
    (bouncy this_world : Song) :
  rearranges random_perm ->
  find_song "Bouncy" songs = Some bouncy ->
  find_song "This World" songs = Some this_world ->
  (19 <= length (available_songs songs bouncy this_world))%nat ->
  generateSetlist random_perm songs guest_performances iterations g
  = generateSetlist random_perm songs [] iterations g.
Proof.
  intros Hperm Hb Ht Hpool. unfold generateSetlist, optimize.
  rewrite Hb, Ht.
  rewrite (trials_loop_ext _ _
             (trial_step random_perm (available_songs songs bouncy this_world)
                [] bouncy this_world)); [reflexivity|].
  intros st. unfold trial_step, run_trial.
  pose proof (shuffle_perm random_perm (rng st)
                (available_songs songs bouncy this_world) Hperm) as Hsh.
  destruct (shuffle random_perm (rng st) _) as [shuffled g'].
  cbn [fst] in Hsh. apply Permutation_length in Hsh.
  rewrite build_setlist_enough_songs by lia. reflexivity.
Qed.

Lemma X7_guests_unused_witness :
  generateSetlist Examples.reversing Examples.songs21 [Examples.guest1] 2 tt
  = generateSetlist Examples.reversing Examples.songs21 [] 2 tt.
Proof.
  apply (X7_guests_unused_with_19_songs Examples.reversing Examples.songs21
           [Examples.guest1] 2 tt Examples.bouncy Examples.this_world).
  - intros g n. cbn [Examples.reversing fst]. symmetry. apply Permutation_rev.
  - vm_compute. reflexivity.
  - vm_compute. reflexivity.
  - vm_compute. lia.
Defined.

Lemma generateSetlist_items {RNG}
    (random_perm : RNG -> nat -> list nat * RNG)
    (songs guest_performances : list Song) (iterations : Z) (g : RNG)
    (groups : list (list Song)) :
  (generateSetlist random_perm songs guest_performances iterations g).1
  = inr groups ->
  forall grp s, grp ∈ groups -> s ∈ grp ->
    s ∈ songs \/ s ∈ guest_performances.
Proof.
  unfold generateSetlist, optimize.
  destruct (find_song "Bouncy" songs) as [b|] eqn:Hb; [|discriminate].
  destruct (find_song "This World" songs) as [t|] eqn:Ht; [|discriminate].
  cbn [fst].
  destruct (Z.to_nat iterations) as [|n]; [discriminate|].
  destruct (trials_loop_best random_perm (available_songs songs b t)
              guest_performances b t n g) as (g0 & Hbest & _).
  rewrite Hbest, split_groups_slices. intros [= <-] grp s Hgrp Hs.
  apply (four_slices_elem _ _ _ Hgrp) in Hs.
  destruct (run_trial_spec random_perm (available_songs songs b t)
              guest_performances b t g0) as (body & Hbody & Hperm).
  rewrite Hbody in Hs. apply elem_of_app in Hs as [Hs|Hs].
  - rewrite Hperm in Hs. apply elem_of_app in Hs as [Hs|Hs].
    + left. apply subseteq_take in Hs. apply shuffle_elem in Hs.
      eapply available_songs_elem, Hs.
    + right. eapply subseteq_take, Hs.
  - left. rewrite !elem_of_cons, elem_of_nil in Hs.
    destruct Hs as [->|[->|[]]].
    + apply (find_song_some _ _ _ Hb).
    + apply (find_song_some _ _ _ Ht).
Qed.

(** X8: every item of every returned group is one of the caller's songs or
    one of the caller's guest performances. *)
Theorem X8_result_items_come_from_inputs {RNG}
    (random_perm : RNG -> nat -> list nat * RNG)
    (songs guest_performances : list Song) (iterations : Z) (g : RNG)
    (groups : list (list Song)) :
  (generateSetlist random_perm songs guest_performances iterations g).1
  = inr groups ->
  forall grp s, grp ∈ groups -> s ∈ grp ->
    s ∈ songs \/ s ∈ guest_performances.
Proof. apply generateSetlist_items. Qed.

Lemma X8_result_items_witness :
  Examples.A ∈ [Examples.A; Examples.bouncy; Examples.this_world]
  \/ Examples.A ∈ @nil Song.
Proof.
  assert (Hrun : (generateSetlist Examples.keep_order
                    [Examples.A; Examples.bouncy; Examples.this_world] [] 1
                    tt).1
                 = inr [[Examples.A; Examples.bouncy; Examples.this_world];
                        []; []; []])
    by (vm_compute; reflexivity).
  apply (X8_result_items_come_from_inputs Examples.keep_order
           [Examples.A; Examples.bouncy; Examples.this_world] [] 1 tt _ Hrun
           [Examples.A; Examples.bouncy; Examples.this_world] Examples.A);
    left.
Defined.

(** ** What the returned lists are made of *)

Lemma generateSetlist_four_groups {RNG}
    (random_perm : RNG -> nat -> list nat * RNG)
    (songs guest_performances : list Song) (iterations : Z) (g : RNG) groups :
  (generateSetlist random_perm songs guest_performances iterations g).1
  = inr groups ->
  length groups = 4%nat.
Proof.
  unfold generateSetlist.
  destruct (find_song "Bouncy" songs); [|discriminate].
  destruct (find_song "This World" songs); [|discriminate].
  cbn [fst]. unfold split_groups.
  destruct (best_setlist _); [|discriminate].
  intros [= <-]. reflexivity.
Qed.

(** X9: when a call on the heap returns, the list it returns and the four
    group lists in it are objects made during the call, none of them is a
    list the caller had; the elements of the groups are references to the
    caller's own song dicts, not copies of them. *)
Theorem X9_groups_are_new_lists_of_callers_songs {RNG}
    (random_perm : RNG -> nat -> list nat * RNG)
    (h0 : gmap Obj.loc Obj.obj) (songs guest_performances : Obj.loc)
    (iterations : Z) (g : RNG)
    (srefs : list Obj.loc) (svals : list Song)
    (grefs : list Obj.loc) (gvals : list Song) (gl : Obj.loc) :
  h0 !! songs = Some (Obj.ListObj srefs) ->
  h0 !! guest_performances = Some (Obj.ListObj grefs) ->
  StoreSpec.deref h0 srefs svals ->
  StoreSpec.deref h0 grefs gvals ->
  let run :=
    Store.generateSetlist random_perm songs guest_performances iterations
      (Obj.World h0 g) in
  run.1 = inr gl ->
  h0 !! gl = None
  /\ exists group_refs,
       Obj.heap run.2 !! gl = Some (Obj.ListObj group_refs)
       /\ length group_refs = 4%nat
       /\ forall gr, gr ∈ group_refs ->
            h0 !! gr = None
            /\ exists refs,
                 Obj.heap run.2 !! gr = Some (Obj.ListObj refs)
                 /\ forall r, r ∈ refs -> exists s, h0 !! r = Some (Obj.DictObj s).
Proof.
  intros Hsongs Hguests Ds Dg run Hrun. subst run.
  destruct (StoreRuns.run_generateSetlist random_perm h0 songs
              guest_performances iterations g srefs svals grefs gvals
              Hsongs Hguests Ds Dg) as (L' & Hworld & Hlocal & Hres).
  cbv zeta in Hworld, Hres.
  destruct (generateSetlist random_perm svals gvals iterations g).1
    as [e|groups] eqn:Hpure; [congruence|].
  destruct Hres as (gl' & Hgl' & group_refs & Hgl & Hgroups).
  assert (gl' = gl) as -> by congruence.
  rewrite Hworld.
  split; [apply Hlocal; eauto|].
  exists group_refs.
  split; [apply StoreRuns.mk_lookup_local, Hgl|].
  split.
  { rewrite (Forall2_length _ _ _ Hgroups).
    eapply generateSetlist_four_groups, Hpure. }
  intros gr Hgr.
  apply list_elem_of_lookup in Hgr as [i Hi].
  destruct (Forall2_lookup_l _ _ _ _ _ Hgroups Hi)
    as (grp & _ & refs & Hrefs & Dgrp).
  split; [apply Hlocal; eauto|].
  exists refs. split; [apply StoreRuns.mk_lookup_local, Hrefs|].
  intros r Hr. apply list_elem_of_lookup in Hr as [k Hk].
  destruct (Forall2_lookup_l _ _ _ _ _ Dgrp Hk) as (s & _ & Hs).
  exists s. exact Hs.
Qed.

Lemma X9_groups_witness :
  let run :=
    Store.generateSetlist Examples.keep_order 10%nat 11%nat 2
      (Obj.World Examples.heap0 tt) in
  Examples.heap0 !! 24%nat = None
  /\ exists group_refs,
       Obj.heap run.2 !! 24%nat = Some (Obj.ListObj group_refs)
       /\ length group_refs = 4%nat
       /\ forall gr, gr ∈ group_refs ->
            Examples.heap0 !! gr = None
            /\ exists refs,
                 Obj.heap run.2 !! gr = Some (Obj.ListObj refs)
                 /\ forall r, r ∈ refs ->
                      exists s, Examples.heap0 !! r = Some (Obj.DictObj s).
Proof.
  apply (X9_groups_are_new_lists_of_callers_songs Examples.keep_order
           Examples.heap0 10%nat 11%nat 2 tt [0; 1; 2; 3]%nat
           [Examples.A; Examples.bouncy; Examples.B; Examples.this_world]
           [4%nat] [Examples.guest1] 24%nat);
    [reflexivity|reflexivity|repeat constructor|repeat constructor|].
  vm_compute. reflexivity.
Defined.

(** ** [parseCsv] *)

Module PyStrip.
Example strip_both : strip Examples.ascii_space "  Bouncy 	" = "Bouncy".
Proof. reflexivity. Qed.

Example strip_inner : strip Examples.ascii_space " This World " = "This World".
Proof. reflexivity. Qed.

Example strip_blank : strip Examples.ascii_space "   " = "".
Proof. reflexivity. Qed.
End PyStrip.

Section ParseCsvFacts.

Variable is_space : ascii -> bool.

Lemma lstrip_head (s : string) c t :
  lstrip is_space s = String c t -> is_space c = false.
Proof.
  induction s as [|a s IH]; cbn [lstrip]; [discriminate|].
  destruct (is_space a) eqn:Ha; [exact IH|]. intros [= <- _]. exact Ha.
Qed.

Lemma rstrip_head (s : string) c t :
  rstrip is_space s = String c t -> exists s', s = String c s'.
Proof.
  destruct s as [|a s]; cbn [rstrip]; [discriminate|].
  destruct (rstrip is_space s); [destruct (is_space a)|];
    intros [= <- _]; eauto.
Qed.

Lemma append_snoc_nonempty (t : string) (c : ascii) :
  String.append t (String c EmptyString) <> EmptyString.
Proof. destruct t; rewrite ?append_nil, ?append_cons; discriminate. Qed.

Lemma rstrip_last (s : string) t c :
  rstrip is_space s = String.append t (String c EmptyString) ->
  is_space c = false.
Proof.
  revert t. induction s as [|a s IH]; intros t; cbn [rstrip].
  - intros H. symmetry in H. destruct (append_snoc_nonempty _ _ H).
  - destruct (rstrip is_space s) as [|b r] eqn:Hr.
    + destruct (is_space a) eqn:Ha.
      * intros H. symmetry in H. destruct (append_snoc_nonempty _ _ H).
      * destruct t as [|d t].
        -- rewrite append_nil. intros [= <-]. exact Ha.
        -- rewrite append_cons. intros [= _ H]. symmetry in H.
           destruct (append_snoc_nonempty _ _ H).
    + destruct t as [|d t].
      * rewrite append_nil. intros [= _ H].
      * rewrite append_cons. intros [= _ H]. apply (IH t). exact H.
Qed.

Lemma strip_no_outer_space (s : string) :
  no_outer_space is_space (strip is_space s).
Proof.
  unfold strip. split.
  - intros c t H. destruct (rstrip_head _ _ _ H) as [s' Hs'].
    eapply lstrip_head, Hs'.
  - intros t c H. eapply rstrip_last, H.
Qed.

Lemma lstrip_fixed (s : string) :
  (forall c t, s = String c t -> is_space c = false) -> lstrip is_space s = s.
Proof.
  destruct s as [|a s]; [reflexivity|]. intros H. cbn [lstrip].
  rewrite (H a s eq_refl). reflexivity.
Qed.

Lemma rstrip_fixed (s : string) :
  (forall t c, s = String.append t (String c EmptyString) ->
     is_space c = false) ->
  rstrip is_space s = s.
Proof.
  induction s as [|a s IH]; [reflexivity|]. intros H. cbn [rstrip].
  rewrite IH.
  - destruct s; [|reflexivity].
    rewrite (H EmptyString a eq_refl). reflexivity.
  - intros t c ->. apply (H (String a t) c). reflexivity.
Qed.

Lemma strip_fixed (s : string) :
  no_outer_space is_space s -> strip is_space s = s.
Proof.
  intros [Hl Hr]. unfold strip. rewrite (lstrip_fixed s Hl).
  apply rstrip_fixed, Hr.
Qed.

Lemma parse_row_app (row : list string) (songs guests : list Song) :
  parse_row is_space row (songs, guests)
  = (songs ++ (parse_row is_space row ([], [])).1,
     guests ++ (parse_row is_space row ([], [])).2).
Proof.
  unfold parse_row.
  destruct (Py.len row <? 2); [cbn; rewrite !app_nil_r; reflexivity|].
  destruct (row !! 0%nat); [|cbn; rewrite !app_nil_r; reflexivity].
  destruct (decide _); cbn; rewrite ?app_nil_r; reflexivity.
Qed.

Lemma parse_rows_from (rows : list (list string)) (songs guests : list Song) :
  Py.for_each rows (parse_row is_space) (songs, guests)
  = (songs ++ (parseCsv is_space rows).1, guests ++ (parseCsv is_space rows).2).
Proof.
  unfold parseCsv, Py.for_each. revert songs guests.
  induction rows as [|r rows IH]; intros songs guests.
  - cbn. rewrite !app_nil_r. reflexivity.
  - cbn [fold_left]. rewrite (parse_row_app r songs guests).
    destruct (parse_row is_space r ([], [])) as [a b]. cbn [fst snd].
    rewrite (IH (songs ++ a) (guests ++ b)), (IH a b). cbn [fst snd].
    rewrite !app_assoc. reflexivity.
Qed.

Lemma parseCsv_cons (row : list string) (rows : list (list string)) :
  parseCsv is_space (row :: rows)
  = ((parse_row is_space row ([], [])).1 ++ (parseCsv is_space rows).1,
     (parse_row is_space row ([], [])).2 ++ (parseCsv is_space rows).2).
Proof.
  unfold parseCsv at 1. unfold Py.for_each. cbn [fold_left].
  destruct (parse_row is_space row ([], [])) as [a b].
  apply parse_rows_from.
Qed.

(** What one row adds: nothing when it has fewer than two fields, and
    otherwise one song, put with the guests exactly when its stripped,
    non-blank performer fields are the single field "Guest Performer". *)
Lemma parse_row_cases (row : list string) :
  ((length row < 2)%nat /\ parse_row is_space row ([], []) = ([], []))
  \/ exists row0 rest,
       row = row0 :: rest /\ rest <> []
       /\ let performers :=
            filter (fun p => p <> EmptyString) (strip is_space <$> rest) in
          let song := mkSong (strip is_space row0) (list_to_set performers) in
          (performers = ["Guest Performer"]
           /\ parse_row is_space row ([], []) = ([], [song]))
          \/ (performers <> ["Guest Performer"]
              /\ parse_row is_space row ([], []) = ([song], [])).
Proof.
  unfold parse_row, Py.len.
  destruct (Z.ltb_spec (Z.of_nat (length row)) 2) as [Hlt|Hge].
  - left. split; [lia|reflexivity].
  - right. destruct row as [|row0 rest]; [cbn in Hge; lia|].
    exists row0, rest. split; [reflexivity|].
    split; [intros ->; cbn in Hge; lia|].
    cbn [lookup list_lookup].
    assert (Hslice : Py.slice_from (row0 :: rest) 1 = rest).
    { unfold Py.slice_from, Py.norm, Py.len.
      change (1 <? 0) with false. cbv iota.
      rewrite Z.min_l by lia. reflexivity. }
    rewrite Hslice. cbv zeta.
    destruct (decide _) as [Heq|Hne]; [left|right]; split;
      (assumption || reflexivity).
Qed.

Lemma parseCsv_elem (rows : list (list string)) (s : Song) :
  (s ∈ (parseCsv is_space rows).1 ->
   exists row, row ∈ rows /\ s ∈ (parse_row is_space row ([], [])).1)
  /\ (s ∈ (parseCsv is_space rows).2 ->
      exists row, row ∈ rows /\ s ∈ (parse_row is_space row ([], [])).2).
Proof.
  induction rows as [|r rows [IH1 IH2]].
  - split; cbn; intros H; inversion H.
  - rewrite parseCsv_cons. cbn [fst snd]. rewrite !elem_of_app.
    split; (intros [H|H];
      [exists r; split; [left|exact H]|]).
    + destruct (IH1 H) as (row & Hrow & Hs). exists row. split; [right|]; done.
    + destruct (IH2 H) as (row & Hrow & Hs). exists row. split; [right|]; done.
Qed.

Lemma parse_row_guest (row : list string) (s : Song) :
  s ∈ (parse_row is_space row ([], [])).2 ->
  performers s = {[ "Guest Performer" ]}.
Proof.
  destruct (parse_row_cases row)
    as [[_ ->]|(row0 & rest & _ & _ & [[Heq ->]|[_ ->]])];
    cbn [snd]; intros Hs; try (inversion Hs; fail).
  apply list_elem_of_singleton in Hs as ->. cbn [performers].
  rewrite Heq. apply list_to_set_singleton_L.
Qed.

Lemma parse_row_stripped (row : list string) (s : Song) :
  s ∈ (parse_row is_space row ([], [])).1
  \/ s ∈ (parse_row is_space row ([], [])).2 ->
  no_outer_space is_space (name s)
  /\ forall p, p ∈ performers s ->
       p <> EmptyString /\ no_outer_space is_space p.
Proof.
  assert (Hsong : forall row0 rest,
    let song :=
      mkSong (strip is_space row0)
        (list_to_set (filter (fun p => p <> EmptyString)
                        (strip is_space <$> rest))) in
    no_outer_space is_space (name song)
    /\ forall p, p ∈ performers song ->
         p <> EmptyString /\ no_outer_space is_space p).
  { intros row0 rest. cbn [name performers]. split.
    - apply strip_no_outer_space.
    - intros p Hp. rewrite elem_of_list_to_set, list_elem_of_filter in Hp.
      destruct Hp as [Hne Hp]. split; [exact Hne|].
      apply list_elem_of_fmap in Hp as (q & -> & _).
      apply strip_no_outer_space. }
  destruct (parse_row_cases row)
    as [[_ ->]|(row0 & rest & _ & _ & [[_ ->]|[_ ->]])];
    cbn [fst snd]; intros [Hs|Hs]; try (inversion Hs; fail);
    apply list_elem_of_singleton in Hs as ->; apply Hsong.
Qed.

End ParseCsvFacts.

(** X10: every guest performance that [parseCsv] returns has exactly the
    performer set [{"Guest Performer"}], so any two of them overlap by
    one performer. *)
Theorem X10_parsed_guests_share_one_performer
    (is_space : ascii -> bool) (rows : list (list string)) (g1 g2 : Song) :
  g1 ∈ (parseCsv is_space rows).2 ->
  g2 ∈ (parseCsv is_space rows).2 ->
  performers g1 = {[ "Guest Performer" ]}
  /\ calculate_overlap g1 g2 = 1.
Proof.
  intros H1 H2.
  apply parseCsv_elem in H1 as (r1 & _ & H1).
  apply parseCsv_elem in H2 as (r2 & _ & H2).
  apply parse_row_guest in H1, H2.
  split; [exact H1|]. unfold calculate_overlap.
  rewrite H1, H2, (idemp_L (∩)), size_singleton. reflexivity.
Qed.

Lemma X10_parsed_guests_witness :
  let g := mkSong "Interlude" {[ "Guest Performer" ]} in
  performers g = {[ "Guest Performer" ]} /\ calculate_overlap g g = 1.
Proof.
  cbv zeta.
  apply (X10_parsed_guests_share_one_performer Examples.ascii_space
           Examples.rows5);
    apply list_elem_of_In; vm_compute; left; reflexivity.
Defined.

(** X11: parsing the rows of two files one after the other gives the
    songs of the first followed by the songs of the second, and the same
    for the guest performances. *)
Theorem X11_parseCsv_of_appended_rows
    (is_space : ascii -> bool) (rows1 rows2 : list (list string)) :
  parseCsv is_space (rows1 ++ rows2)
  = ((parseCsv is_space rows1).1 ++ (parseCsv is_space rows2).1,
     (parseCsv is_space rows1).2 ++ (parseCsv is_space rows2).2).
Proof.
  unfold parseCsv at 1. rewrite PyFacts.for_each_app.
  fold (parseCsv is_space rows1).
  destruct (parseCsv is_space rows1) as [songs guests].
  apply parse_rows_from.
Qed.

(** X12: rows with fewer than two fields are skipped and every other row
    gives exactly one item: the parse is that of the rows with two fields
    at least, and the songs and guest performances together are as many as
    those rows. *)
Theorem X12_parseCsv_skips_short_rows
    (is_space : ascii -> bool) (rows : list (list string)) :
  let long := filter (fun row => (2 <= length row)%nat) rows in
  parseCsv is_space rows = parseCsv is_space long
  /\ (length (parseCsv is_space rows).1 + length (parseCsv is_space rows).2
      = length long)%nat.
Proof.
  cbv zeta. induction rows as [|r rows [IH1 IH2]]; [split; reflexivity|].
  rewrite parseCsv_cons, filter_cons. cbn [fst snd].
  rewrite !length_app.
  destruct (parse_row_cases is_space r)
    as [[Hlt Hr]|(row0 & rest & Hrow & Hrest & Hcases)].
  - rewrite Hr. cbn [fst snd app length].
    destruct (decide (2 <= length r)%nat); [lia|].
    split; [rewrite <- IH1; destruct (parseCsv is_space rows); reflexivity|].
    exact IH2.
  - assert (Hlen : (2 <= length r)%nat).
    { subst r. destruct rest; [congruence|]. cbn [length]. lia. }
    destruct (decide (2 <= length r)%nat); [|lia].
    rewrite parseCsv_cons, <- IH1. cbn [fst snd length].
    split; [reflexivity|].
    cbv zeta in Hcases. destruct Hcases as [[_ ->]|[_ ->]];
      cbn [fst snd length]; lia.
Qed.

(** X13: no name and no performer that [parseCsv] returns starts or ends
    with whitespace, and no performer is the empty string. *)
Theorem X13_parsed_fields_are_stripped
    (is_space : ascii -> bool) (rows : list (list string)) (s : Song) :
  s ∈ (parseCsv is_space rows).1 \/ s ∈ (parseCsv is_space rows).2 ->
  no_outer_space is_space (name s)
  /\ forall p, p ∈ performers s ->
       p <> EmptyString /\ no_outer_space is_space p.
Proof.
  intros [H|H]; apply parseCsv_elem in H as (row & _ & H);
    apply (parse_row_stripped is_space row); [left|right]; exact H.
Qed.

Lemma X13_parsed_fields_witness :
  let s := mkSong "Bouncy" {[ "Ann"; "Bob" ]} in
  no_outer_space Examples.ascii_space (name s)
  /\ forall p, p ∈ performers s ->
       p <> EmptyString /\ no_outer_space Examples.ascii_space p.
Proof.
  cbv zeta.
  apply (X13_parsed_fields_are_stripped Examples.ascii_space Examples.rows5).
  left. apply list_elem_of_In. vm_compute. left. reflexivity.
Defined.

(** X14: a row of two fields or more whose performer fields are all blank
    is kept as a regular song with no performer at all; such a song
    overlaps with no song. *)
Theorem X14_blank_performers_give_empty_set
    (is_space : ascii -> bool) (row0 : string) (rest : list string) :
  rest <> [] ->
  (forall p, p ∈ rest -> strip is_space p = EmptyString) ->
  parseCsv is_space [row0 :: rest] = ([mkSong (strip is_space row0) ∅], [])
  /\ forall other,
       calculate_overlap (mkSong (strip is_space row0) ∅) other = 0.
Proof.
  intros Hrest Hblank. split.
  - rewrite parseCsv_cons. cbn [parseCsv Py.for_each fold_left fst snd].
    rewrite !app_nil_r.
    assert (Hnone : filter (fun p => p <> EmptyString)
                      (strip is_space <$> rest) = []).
    { clear Hrest. induction rest as [|p rest IH]; [reflexivity|].
      rewrite fmap_cons, filter_cons, (Hblank p) by left.
      destruct (decide _); [congruence|].
      apply IH. intros q Hq. apply Hblank. right. exact Hq. }
    destruct (parse_row_cases is_space (row0 :: rest))
      as [[Hlt _]|(r0 & rs & [= <- <-] & _ & Hcases)].
    + destruct rest; [congruence|]. cbn [length] in Hlt. lia.
    + cbv zeta in Hcases. rewrite Hnone in Hcases.
      destruct Hcases as [[Hguest _]|[_ ->]]; [discriminate|reflexivity].
  - intros other. unfold calculate_overlap. cbn [performers].
    rewrite (left_absorb_L ∅ (∩)), size_empty. reflexivity.
Qed.

Lemma X14_blank_performers_witness :
  parseCsv Examples.ascii_space [["Quiet"; "  "; ""]]
  = ([mkSong (strip Examples.ascii_space "Quiet") ∅], [])
  /\ forall other,
       calculate_overlap (mkSong (strip Examples.ascii_space "Quiet") ∅) other
       = 0.
Proof.
  apply (X14_blank_performers_give_empty_set Examples.ascii_space "Quiet"
           ["  "; ""]); [discriminate|].
  intros p Hp. rewrite !elem_of_cons, elem_of_nil in Hp.
  destruct Hp as [->|[->|[]]]; reflexivity.
Defined.


(** ** The statistics of [print_setlist] *)

Section Statistics.

Implicit Types (pp : gmap string (list Z)) (p : string) (songs : list Song).

(** The inner loop, over the performers of one song. *)
Lemma record_positions_lookup (pos : Z) (l : list string) pp p :
  NoDup l ->
  Py.for_each l (record_position pos) pp !! p
  = if decide (p ∈ l /\ p <> "Guest Performer")
    then Some (default [] (pp !! p) ++ [pos])
    else pp !! p.
Proof.
  unfold Py.for_each. intros Hnd. revert pp.
  induction Hnd as [|x l Hx Hnd IH]; intros pp; cbn [fold_left].
  - destruct (decide (p ∈ [] /\ p <> "Guest Performer")) as [[Hin _]|_];
      [inversion Hin|reflexivity].
  - rewrite IH. clear IH. unfold record_position.
    destruct (decide (p = x)) as [->|Hpx].
    + destruct (decide (x ∈ l /\ x <> "Guest Performer")) as [[Hin _]|_];
        [contradiction|].
      destruct (decide (x <> "Guest Performer")) as [Hg|Hg].
      * rewrite lookup_insert_eq.
        destruct (decide (x ∈ x :: l /\ x <> "Guest Performer")) as [_|Hn];
          [reflexivity|].
        destruct Hn. split; [left|exact Hg].
      * destruct (decide (x ∈ x :: l /\ x <> "Guest Performer"))
          as [[_ Hn]|_]; [contradiction|reflexivity].
    + assert (Hpp : (if decide (x <> "Guest Performer")
                     then <[x := default [] (pp !! x) ++ [pos]]> pp
                     else pp) !! p = pp !! p).
      { destruct (decide (x <> "Guest Performer"));
          [apply lookup_insert_ne; congruence|reflexivity]. }
      rewrite Hpp.
      destruct (decide (p ∈ l /\ p <> "Guest Performer")) as [[Hin Hg]|Hn];
        destruct (decide (p ∈ x :: l /\ p <> "Guest Performer"))
          as [[Hin' Hg']|Hn'];
        try reflexivity.
      * destruct Hn'. split; [right; exact Hin|exact Hg].
      * destruct Hn. split; [|exact Hg'].
        apply elem_of_cons in Hin' as [?|?]; [contradiction|assumption].
Qed.

(** The outer loop, from any position and any dict. *)
Lemma performer_positions_from (k : Z) songs pp p :
  Py.for_each (Py.enumerate_from k songs)
    (fun '(pos, song) pp =>
       Py.for_each (elements (performers song)) (record_position pos) pp)
    pp !! p
  = if decide (p = "Guest Performer") then pp !! p
    else
      match omap (fun x : Z * Song =>
                    if decide (p ∈ performers x.2) then Some x.1 else None)
                 (Py.enumerate_from k songs) with
      | [] => pp !! p
      | ps => Some (default [] (pp !! p) ++ ps)
      end.
Proof.
  revert k pp. induction songs as [|s songs IH]; intros k pp.
  - cbn. destruct (decide _); reflexivity.
  - cbn [Py.enumerate_from]. unfold Py.for_each at 1. cbn [fold_left].
    fold (Py.for_each (Py.enumerate_from (k + 1) songs)
            (fun '(pos, song) pp =>
               Py.for_each (elements (performers song))
                 (record_position pos) pp)
            (Py.for_each (elements (performers s)) (record_position k) pp)).
    rewrite IH, record_positions_lookup by apply NoDup_elements.
    cbn [omap list_omap fst snd].
    destruct (decide (p = "Guest Performer")) as [->|Hg].
    + destruct (decide _) as [[_ Hn]|_]; [contradiction|reflexivity].
    + destruct (decide (p ∈ performers s)) as [Hin|Hin].
      * destruct (decide _) as [_|Hn].
        2: { destruct Hn. split; [apply elem_of_elements, Hin|exact Hg]. }
        cbn [default from_option]. unfold id.
        destruct (omap _ (Py.enumerate_from (k + 1) songs)) as [|q ps];
          [reflexivity|].
        rewrite <- app_assoc. reflexivity.
      * destruct (decide _) as [[Hn _]|_];
          [apply elem_of_elements in Hn; contradiction|reflexivity].
Qed.

Lemma performer_positions_lookup (groups : list (list Song)) p :
  performer_positions groups !! p
  = if decide (p = "Guest Performer") then None
    else match positions_of p (all_songs groups) with
         | [] => None
         | ps => Some ps
         end.
Proof.
  unfold performer_positions, positions_of, Py.enumerate.
  rewrite performer_positions_from, lookup_empty. reflexivity.
Qed.

(** The positions of a performer, counted from [k]. *)
Lemma positions_from_elem (k : Z) songs p (a : Z) :
  a ∈ omap (fun x : Z * Song =>
              if decide (p ∈ performers x.2) then Some x.1 else None)
           (Py.enumerate_from k songs)
  <-> exists (i : nat) s,
        a = k + Z.of_nat i /\ songs !! i = Some s /\ p ∈ performers s.
Proof.
  revert k. induction songs as [|s songs IH]; intros k.
  - cbn. split; [intros H; inversion H|intros (i & s & _ & H & _); discriminate].
  - cbn [Py.enumerate_from omap list_omap fst snd].
    assert (Hrest :
      a ∈ omap (fun x : Z * Song =>
                  if decide (p ∈ performers x.2) then Some x.1 else None)
               (Py.enumerate_from (k + 1) songs)
      <-> exists (i : nat) s',
            a = k + Z.of_nat (S i) /\ (s :: songs) !! S i = Some s'
            /\ p ∈ performers s').
    { rewrite IH. split; intros (i & s' & Ha & Hs & Hp); exists i, s';
        (split; [lia|split; assumption]). }
    destruct (decide (p ∈ performers s)) as [Hin|Hin].
    + rewrite elem_of_cons, Hrest. split.
      * intros [->|(i & s' & H)]; [|exists (S i), s'; exact H].
        exists 0%nat, s. split; [lia|]. split; [reflexivity|exact Hin].
      * intros ([|i] & s' & Ha & Hs & Hp); [left; lia|].
        right. exists i, s'. split; [exact Ha|]. split; assumption.
    + rewrite Hrest. split.
      * intros (i & s' & H). exists (S i), s'. exact H.
      * intros ([|i] & s' & Ha & Hs & Hp).
        -- cbn in Hs. injection Hs as <-. contradiction.
        -- exists i, s'. split; [exact Ha|]. split; assumption.
Qed.

Lemma positions_from_increasing (k : Z) songs p (i : nat) (a b : Z) :
  let ps :=
    omap (fun x : Z * Song =>
            if decide (p ∈ performers x.2) then Some x.1 else None)
         (Py.enumerate_from k songs) in
  ps !! i = Some a -> ps !! S i = Some b -> a < b.
Proof.
  cbv zeta. revert k i. induction songs as [|s songs IH]; intros k i.
  - cbn. discriminate.
  - cbn [Py.enumerate_from omap list_omap fst snd].
    destruct (decide (p ∈ performers s)) as [Hin|Hin]; [|apply IH].
    destruct i as [|i]; [|apply IH].
    cbn [lookup list_lookup]. intros [= <-] Hb.
    apply list_elem_of_lookup_2, positions_from_elem in Hb
      as (j & s' & -> & _). lia.
Qed.

Lemma positions_of_elem songs p (a : Z) :
  a ∈ positions_of p songs
  <-> exists (i : nat) s,
        a = Z.of_nat i /\ songs !! i = Some s /\ p ∈ performers s.
Proof. unfold positions_of, Py.enumerate. apply positions_from_elem. Qed.

(** [min] and the gaps between neighbours. *)
Lemma fold_min_spec (l : list Z) (x : Z) :
  fold_left Z.min l x ∈ x :: l /\ forall y, y ∈ x :: l -> fold_left Z.min l x <= y.
Proof.
  revert x. induction l as [|z l IH]; intros x; cbn [fold_left].
  - split; [left|]. intros y Hy. apply list_elem_of_singleton in Hy. lia.
  - destruct (IH (Z.min x z)) as [Hin Hle]. split.
    + apply elem_of_cons in Hin as [Heq|Hin]; [|right; right; exact Hin].
      rewrite Heq. destruct (Z.min_spec x z) as [[_ ->]|[_ ->]];
        [left|right; left].
    + intros y Hy. rewrite !elem_of_cons in Hy.
      destruct Hy as [->|[->|Hy]].
      * etransitivity; [apply Hle; left|]. lia.
      * etransitivity; [apply Hle; left|]. lia.
      * apply Hle. right. exact Hy.
Qed.

Lemma py_min_spec (l : list Z) (d : Z) :
  Py.min l = Some d -> d ∈ l /\ forall y, y ∈ l -> d <= y.
Proof.
  destruct l as [|x l]; [discriminate|]. cbn [Py.min]. intros [= <-].
  apply fold_min_spec.
Qed.

Lemma position_gaps_elem (positions : list Z) (d : Z) :
  d ∈ position_gaps positions ->
  exists (i : nat) a b,
    positions !! i = Some a /\ positions !! S i = Some b /\ d = b - a.
Proof.
  unfold position_gaps. rewrite list_elem_of_bind.
  intros (z & Hd & Hz). unfold Py.range in Hz.
  apply elem_of_seqZ in Hz.
  replace (Z.to_nat (z + 1)) with (S (Z.to_nat z)) in Hd by lia.
  destruct (positions !! S (Z.to_nat z)) as [b|] eqn:Hb; [|inversion Hd].
  destruct (positions !! Z.to_nat z) as [a|] eqn:Ha; [|inversion Hd].
  apply list_elem_of_singleton in Hd. eauto 6.
Qed.

Lemma Zsum_ge_elem (l : list Z) (x : Z) :
  Forall (fun z => 0 <= z) l -> x ∈ l -> x <= Zsum l.
Proof.
  induction 1 as [|y l Hy Hl IH]; intros Hx; [inversion Hx|].
  rewrite Zsum_cons. pose proof (Zsum_nonneg l Hl).
  apply elem_of_cons in Hx as [->|Hx]; [lia|]. specialize (IH Hx). lia.
Qed.

End Statistics.

(** X15: the statistics record, for every performer other than
    "Guest Performer", exactly the positions of the songs it appears in,
    from the first to the last; "Guest Performer" and performers that
    appear nowhere have no entry. *)
Theorem X15_performer_positions_are_the_appearances
    (groups : list (list Song)) (p : string) :
  performer_positions groups !! p
  = (if decide (p = "Guest Performer") then None
     else match positions_of p (all_songs groups) with
          | [] => None
          | ps => Some ps
          end)
  /\ (forall a : Z,
        a ∈ positions_of p (all_songs groups)
        <-> exists (i : nat) s,
              a = Z.of_nat i /\ all_songs groups !! i = Some s
              /\ p ∈ performers s)
  /\ (forall (i : nat) (a b : Z),
        positions_of p (all_songs groups) !! i = Some a ->
        positions_of p (all_songs groups) !! S i = Some b ->
        a < b).
Proof.
  split; [apply performer_positions_lookup|].
  split; [intros a; apply positions_of_elem|].
  intros i a b. apply positions_from_increasing.
Qed.

(** X16: an entry [(min_gap, num_songs)] of [gaps] has a gap of at least
    1 and at least two songs, and a gap of 3 or less costs: the score of
    the whole sequence is then at most [-(4 - min_gap) * 10]. *)
Theorem X16_short_gap_lowers_the_score
    (groups : list (list Song)) (p : string) (min_gap num_songs : Z) :
  gaps groups !! p = Some (min_gap, num_songs) ->
  1 <= min_gap /\ 2 <= num_songs
  /\ (min_gap <= 3 ->
      calculate_setlist_score (all_songs groups) <= - ((4 - min_gap) * 10)).
Proof.
  unfold gaps. rewrite lookup_omap, performer_positions_lookup.
  destruct (decide (p = "Guest Performer")) as [|Hg]; [discriminate|].
  set (songs := all_songs groups).
  destruct (positions_of p songs) as [|q ps] eqn:Hps; [discriminate|].
  rewrite <- Hps. cbn [mbind option_bind]. unfold gap_entry.
  destruct (Z.ltb_spec 1 (Py.len (positions_of p songs))) as [Hlen|];
    [|discriminate].
  destruct (Py.min (position_gaps (positions_of p songs))) as [d|] eqn:Hmin;
    [|discriminate].
  cbn [mbind option_bind]. intros [= <- <-].
  apply py_min_spec in Hmin as [Hd _].
  apply position_gaps_elem in Hd as (i & a & b & Ha & Hb & ->).
  pose proof (positions_from_increasing 0 songs p i a b Ha Hb) as Hab.
  split; [lia|]. split; [lia|]. intros Hnear.
  apply list_elem_of_lookup_2, positions_of_elem in Ha as (ia & sa & -> & Hsa & Hpa).
  apply list_elem_of_lookup_2, positions_of_elem in Hb as (ib & sb & -> & Hsb & Hpb).
  rewrite score_eq_spec. unfold spec_score.
  assert (Hin : (ia, ib) ∈ near_pairs (length songs)).
  { apply near_pairs_spec. split; [lia|]. eapply lookup_lt_Some, Hsb. }
  pose proof (Zsum_ge_elem _ (pair_penalty songs (ia, ib))
                (penalties_nonneg songs)) as Hsum.
  rewrite (pair_penalty_lookup songs ia ib sa sb Hsa Hsb) in Hsum.
  specialize (Hsum ltac:(rewrite <- (pair_penalty_lookup songs ia ib sa sb Hsa Hsb);
                         apply list_elem_of_fmap; eauto)).
  assert (Hone : (1 <= size (performers sa ∩ performers sb))%nat).
  { destruct (size (performers sa ∩ performers sb)) eqn:Hsz; [|lia].
    apply size_empty_inv in Hsz.
    destruct (not_elem_of_empty (C:=gset string) p).
    rewrite <- Hsz. apply elem_of_intersection. split; assumption. }
  nia.
Qed.

Lemma X16_short_gap_witness :
  let groups :=
    [[Examples.A; Examples.guest1]; [Examples.B; Examples.guest1; Examples.C]] in
  1 <= 2 /\ 2 <= 3
  /\ (2 <= 3 -> calculate_setlist_score (all_songs groups) <= - ((4 - 2) * 10)).
Proof.
  cbv zeta.
  apply (X16_short_gap_lowers_the_score
           [[Examples.A; Examples.guest1];
            [Examples.B; Examples.guest1; Examples.C]] "y" 2 3).
  vm_compute. reflexivity.
Defined.

(** X17: the number of entries of the statistics, printed as "Total
    Performers", is the number of different performers of the songs, not
    counting "Guest Performer". *)
Theorem X17_total_performers (groups : list (list Song)) :
  size (performer_positions groups)
  = size (⋃ (performers <$> all_songs groups) ∖ {[ "Guest Performer" ]}).
Proof.
  rewrite <- size_dom. f_equal. apply set_eq. intros p.
  rewrite elem_of_dom, performer_positions_lookup.
  rewrite elem_of_difference, elem_of_union_list, not_elem_of_singleton.
  destruct (decide (p = "Guest Performer")) as [Hg|Hg].
  - split; [intros [? [=]]|intros [_ Hn]; contradiction].
  - split.
    + intros Hsome. split; [|exact Hg].
      destruct (positions_of p (all_songs groups)) as [|a ps] eqn:Hps;
        [destruct Hsome; discriminate|].
      assert (Ha : a ∈ positions_of p (all_songs groups))
        by (rewrite Hps; left).
      apply positions_of_elem in Ha as (i & s & _ & Hs & Hp).
      exists (performers s). split; [|exact Hp].
      apply list_elem_of_fmap. exists s. split; [reflexivity|].
      eapply list_elem_of_lookup_2, Hs.
    + intros [(X & HX & Hp) _].
      apply list_elem_of_fmap in HX as (s & -> & Hs).
      apply list_elem_of_lookup in Hs as [i Hs].
      assert (Ha : Z.of_nat i ∈ positions_of p (all_songs groups))
        by (apply positions_of_elem; eauto).
      destruct (positions_of p (all_songs groups)); [inversion Ha|eauto].
Qed.

(** ** The statistics are those of the winning sequence *)

Lemma build_setlist_length_le (shuffled guest_performances : list Song)
    (bouncy this_world : Song) :
  (length (build_setlist shuffled guest_performances bouncy this_world)
   <= 21)%nat.
Proof.
  destruct (build_setlist_spec shuffled guest_performances bouncy this_world)
    as (body & -> & Hbody).
  rewrite length_app, (Permutation_length Hbody), length_app, !length_take.
  unfold guests_taken, songs_taken. cbn [length]. lia.
Qed.

(** X18: when a call returns, the groups put end to end are the best
    sequence of the trial loop, nothing of it is cut off by the slicing,
    and the score of that sequence is the best score recorded; so the
    statistics that [print_setlist] computes from the groups are those of
    the winning sequence. *)
Theorem X18_groups_are_the_winning_sequence {RNG}
    (random_perm : RNG -> nat -> list nat * RNG)
    (songs guest_performances : list Song) (iterations : Z) (g : RNG)
    (groups : list (list Song)) :
  (generateSetlist random_perm songs guest_performances iterations g).1
  = inr groups ->
  exists bouncy this_world,
    find_song "Bouncy" songs = Some bouncy
    /\ find_song "This World" songs = Some this_world
    /\ let st :=
         optimize random_perm songs guest_performances bouncy this_world
           iterations g in
       best_setlist st = Some (all_songs groups)
       /\ best_score st = Fin (calculate_setlist_score (all_songs groups)).
Proof.
  unfold generateSetlist.
  destruct (find_song "Bouncy" songs) as [b|]; [|discriminate].
  destruct (find_song "This World" songs) as [t|]; [|discriminate].
  cbn [fst]. intros Hgroups. exists b, t.
  split; [reflexivity|]. split; [reflexivity|]. cbv zeta.
  unfold optimize in *.
  destruct (Z.to_nat iterations) as [|n]; [discriminate|].
  destruct (trials_loop_best random_perm (available_songs songs b t)
              guest_performances b t n g) as (g0 & Hbest & Hscore).
  cbv zeta in Hbest, Hscore. rewrite Hbest in Hgroups.
  rewrite split_groups_slices in Hgroups. injection Hgroups as <-.
  unfold all_songs. rewrite four_slices_concat, take_ge.
  - split; assumption.
  - unfold run_trial. destruct (shuffle random_perm g0 _) as [shuffled g'].
    apply build_setlist_length_le.
Qed.

Lemma X18_groups_witness :
  let s := [Examples.A; Examples.bouncy; Examples.this_world] in
  exists bouncy this_world,
    find_song "Bouncy" s = Some bouncy
    /\ find_song "This World" s = Some this_world
    /\ let st :=
         optimize Examples.keep_order s [] bouncy this_world 1 tt in
       best_setlist st = Some (all_songs [s; []; []; []])
       /\ best_score st
          = Fin (calculate_setlist_score (all_songs [s; []; []; []])).
Proof.
  cbv zeta.
  apply (X18_groups_are_the_winning_sequence Examples.keep_order
           [Examples.A; Examples.bouncy; Examples.this_world] [] 1 tt).
  vm_compute. reflexivity.
Defined.

(** ** [main] *)

(** X19: every item of the groups that [main] gets comes from a row of
    the file, as a song or as a guest performance, and neither its name
    nor any of its performers starts or ends with whitespace. *)
Theorem X19_main_items_are_parsed_and_stripped {RNG}
    (is_space : ascii -> bool) (random_perm : RNG -> nat -> list nat * RNG)
    (rows : list (list string)) (g : RNG) (groups : list (list Song)) :
  (main is_space random_perm rows g).1 = inr groups ->
  forall grp s, grp ∈ groups -> s ∈ grp ->
    (s ∈ (parseCsv is_space rows).1 \/ s ∈ (parseCsv is_space rows).2)
    /\ no_outer_space is_space (name s)
    /\ forall p, p ∈ performers s ->
         p <> EmptyString /\ no_outer_space is_space p.
Proof.
  unfold main. intros Hmain grp s Hgrp Hs.
  assert (Hin : s ∈ (parseCsv is_space rows).1
                \/ s ∈ (parseCsv is_space rows).2).
  { destruct (parseCsv is_space rows) as [songs guests]. cbn [fst snd].
    eapply generateSetlist_items; eassumption. }
  split; [exact Hin|].
  destruct Hin as [H|H]; apply parseCsv_elem in H as (row & _ & H);
    apply (parse_row_stripped is_space row); [left|right]; exact H.
Qed.

Lemma X19_main_items_witness :
  let interlude := mkSong "Interlude" {[ "Guest Performer" ]} in
  let quiet := mkSong "Quiet" ∅ in
  let bouncy := mkSong "Bouncy" {[ "Ann"; "Bob" ]} in
  let this_world := mkSong "This World" {[ "Ann" ]} in
  (bouncy ∈ (parseCsv Examples.ascii_space Examples.rows5).1
   \/ bouncy ∈ (parseCsv Examples.ascii_space Examples.rows5).2)
  /\ no_outer_space Examples.ascii_space (name bouncy)
  /\ forall p, p ∈ performers bouncy ->
       p <> EmptyString /\ no_outer_space Examples.ascii_space p.
Proof.
  intros interlude quiet bouncy this_world.
  assert (Hmain : (main Examples.ascii_space Examples.keep_order
                     Examples.rows5 tt).1
                  = inr [[interlude; quiet; bouncy; this_world]; []; []; []])
    by (vm_compute; reflexivity).
  apply (X19_main_items_are_parsed_and_stripped Examples.ascii_space
           Examples.keep_order Examples.rows5 tt _ Hmain
           [interlude; quiet; bouncy; this_world]);
    [left|right; right; left].
Defined.

(** ** Inputs without any shared performer *)

Lemma all_disjoint_Permutation (l k : list Song) :
  l ≡ₚ k -> all_disjoint l -> all_disjoint k.
Proof.
  induction 1 as [|x l k Hperm IH|x y l|l k m _ IH1 _ IH2]; cbn [all_disjoint].
  - trivial.
  - intros [Hx Hl]. split; [rewrite <- Hperm; exact Hx|apply IH, Hl].
  - intros [Hy [Hx Hl]]. apply Forall_cons in Hy as [Hyx Hy].
    split; [|split; assumption].
    constructor; [symmetry; exact Hyx|exact Hx].
  - intros H. apply IH2, IH1, H.
Qed.

Lemma all_disjoint_submseteq (l k : list Song) :
  l ⊆+ k -> all_disjoint k -> all_disjoint l.
Proof.
  induction 1 as [|x l k Hsub IH|x y l|x l k Hsub IH|l k m _ IH1 _ IH2];
    cbn [all_disjoint].
  - trivial.
  - intros [Hx Hk]. split; [|apply IH, Hk].
    rewrite Forall_forall in *. intros y Hy.
    apply Hx. eapply elem_of_submseteq; eassumption.
  - intros [Hx [Hy Hl]]. apply Forall_cons in Hx as [Hxy Hx].
    split; [|split; assumption].
    constructor; [symmetry; exact Hxy|exact Hy].
  - intros [_ Hk]. apply IH, Hk.
  - intros H. apply IH1, IH2, H.
Qed.

Lemma all_disjoint_no_near_overlap (l : list Song) :
  all_disjoint l -> no_near_overlap l.
Proof.
  intros Hl i j a b [Hij _]. revert i j Hij.
  induction l as [|x l IH]; intros i j Hij Ha Hb; [discriminate|].
  destruct Hl as [Hx Hl]. destruct j as [|j]; [lia|].
  destruct i as [|i].
  - injection Ha as <-. cbn in Hb.
    apply disjoint_intersection_L.
    rewrite Forall_forall in Hx. apply Hx.
    eapply list_elem_of_lookup_2, Hb.
  - apply (IH Hl i j); [lia|exact Ha|exact Hb].
Qed.

Lemma no_near_overlap_score (s : list Song) :
  no_near_overlap s -> calculate_setlist_score s = 0.
Proof.
  intros Hno. rewrite score_eq_spec. unfold spec_score.
  enough (Zsum (pair_penalty s <$> near_pairs (length s)) = 0) by lia.
  assert (Hall : Forall (fun z => z = 0)
                   (pair_penalty s <$> near_pairs (length s))).
  { apply Forall_fmap, Forall_forall. intros [i j] Hp.
    apply near_pairs_spec in Hp as [Hij Hn].
    unfold compose, pair_penalty. cbn [fst snd].
    destruct (s !! i) as [a|] eqn:Ha; [|reflexivity].
    destruct (s !! j) as [b|] eqn:Hb; [|reflexivity].
    rewrite (Hno i j a b Hij Ha Hb), size_empty. lia. }
  induction Hall as [|x l Hx Hl IH]; [reflexivity|].
  rewrite Zsum_cons. lia.
Qed.

Lemma filter_partition {A} (f : A -> bool) (l : list A) :
  l ≡ₚ List.filter f l ++ List.filter (fun x => negb (f x)) l.
Proof.
  induction l as [|x l IH]; [reflexivity|]. cbn [List.filter].
  destruct (f x); cbn [negb app].
  - constructor. exact IH.
  - rewrite <- Permutation_middle. constructor. exact IH.
Qed.

Lemma anchors_and_available (songs : list Song) (b t : Song) :
  b <> t -> b ∈ songs -> t ∈ songs ->
  [b; t] ++ available_songs songs b t ⊆+ songs.
Proof.
  intros Hne Hb Ht. unfold available_songs.
  rewrite (filter_partition (fun s => bool_decide (s ∈ [b; t])) songs) at 2.
  apply submseteq_app; [|reflexivity].
  apply NoDup_submseteq.
  - apply NoDup_cons. split; [|apply NoDup_singleton].
    rewrite list_elem_of_singleton. exact Hne.
  - intros x Hx. apply list_elem_of_In, filter_In.
    split; [|apply bool_decide_eq_true_2, Hx].
    apply list_elem_of_In.
    rewrite !elem_of_cons, elem_of_nil in Hx.
    destruct Hx as [->|[->|[]]]; assumption.
Qed.

(** X20: when no two items of the songs and guest performances share a
    performer and the two anchors are different songs, a call with at
    least one trial returns groups whose sequence has the score 0, the
    best there is. *)
Theorem X20_disjoint_inputs_give_score_zero {RNG}
    (random_perm : RNG -> nat -> list nat * RNG)
    (songs guest_performances : list Song) (iterations : Z) (g : RNG)
    (bouncy this_world : Song) :
  rearranges random_perm ->
  all_disjoint (songs ++ guest_performances) ->
  find_song "Bouncy" songs = Some bouncy ->
  find_song "This World" songs = Some this_world ->
  bouncy <> this_world ->
  1 <= iterations ->
  exists groups,
    (generateSetlist random_perm songs guest_performances iterations g).1
    = inr groups
    /\ calculate_setlist_score (all_songs groups) = 0.
Proof.
  intros Hperm Hdisj Hb Ht Hne Hit.
  unfold generateSetlist, optimize. rewrite Hb, Ht. cbn [fst].
  replace (Z.to_nat iterations) with (S (Z.to_nat (iterations - 1))) by lia.
  destruct (trials_loop_best random_perm (available_songs songs bouncy this_world)
              guest_performances bouncy this_world
              (Z.to_nat (iterations - 1)) g) as (g0 & Hbest & _).
  rewrite Hbest, split_groups_slices. eexists. split; [reflexivity|].
  unfold all_songs. rewrite four_slices_concat, take_ge.
  2: { unfold run_trial. destruct (shuffle random_perm g0 _) as [shuffled g'].
       apply build_setlist_length_le. }
  apply no_near_overlap_score, all_disjoint_no_near_overlap.
  apply (all_disjoint_submseteq _ (songs ++ guest_performances)); [|exact Hdisj].
  destruct (run_trial_spec random_perm (available_songs songs bouncy this_world)
              guest_performances bouncy this_world g0) as (body & -> & Hbody).
  pose proof (shuffle_perm random_perm g0
                (available_songs songs bouncy this_world) Hperm) as Hsh.
  set (shuffled := (shuffle random_perm g0 _).1) in *.
  transitivity (([bouncy; this_world]
                 ++ available_songs songs bouncy this_world)
                ++ guest_performances).
  - transitivity ((available_songs songs bouncy this_world
                   ++ guest_performances) ++ [bouncy; this_world]).
    + apply submseteq_app; [|reflexivity].
      etransitivity; [apply Permutation_submseteq, Hbody|].
      apply submseteq_app; [|apply submseteq_take].
      etransitivity; [apply submseteq_take|].
      apply Permutation_submseteq, Hsh.
    + apply Permutation_submseteq.
      etransitivity; [apply Permutation_app_comm|].
      rewrite app_assoc. reflexivity.
  - apply submseteq_app; [|reflexivity].
    apply anchors_and_available; [exact Hne| |].
    + apply (find_song_some _ _ _ Hb).
    + apply (find_song_some _ _ _ Ht).
Qed.

Lemma X20_disjoint_inputs_witness :
  exists groups,
    (generateSetlist Examples.reversing Examples.apart [Examples.guest1] 5
       tt).1 = inr groups
    /\ calculate_setlist_score (all_songs groups) = 0.
Proof.
  apply (X20_disjoint_inputs_give_score_zero Examples.reversing Examples.apart
           [Examples.guest1] 5 tt Examples.bouncy Examples.this_world).
  - intros g n. cbn [Examples.reversing fst]. symmetry. apply Permutation_rev.
  - cbn [all_disjoint Examples.apart app].
    rewrite !Forall_cons, !Forall_nil.
    repeat split; try exact I;
      apply (bool_decide_unpack _); vm_compute; exact I.
  - vm_compute. reflexivity.
  - vm_compute. reflexivity.
  - discriminate.
  - lia.
Defined.

Lemma X6_best_trial_witness :
  let songs := [Examples.X1; Examples.bouncy; Examples.X2; Examples.this_world] in
  let st :=
    optimize Examples.keep_then_reverse songs [] Examples.bouncy
      Examples.this_world (Z.of_nat 2) 0%nat in
  let score k :=
    calculate_setlist_score
      (trial_built Examples.keep_then_reverse songs [] Examples.bouncy
         Examples.this_world 0%nat k) in
  exists k,
    (k <= 1)%nat
    /\ best_setlist st
       = Some (trial_built Examples.keep_then_reverse songs [] Examples.bouncy
                 Examples.this_world 0%nat k)
    /\ best_score st = Fin (score k)
    /\ (forall j, (j <= 1)%nat -> score j <= score k)
    /\ (forall j, (j < k)%nat -> score j < score k).
Proof.
  exact (X6_best_is_first_best_trial Examples.keep_then_reverse
           [Examples.X1; Examples.bouncy; Examples.X2; Examples.this_world] []
           Examples.bouncy Examples.this_world 0%nat 1).
Defined.

Lemma X15_performer_positions_witness :
  let groups :=
    [[Examples.A; Examples.guest1]; [Examples.B; Examples.guest1; Examples.C]] in
  performer_positions groups !! "y" = Some [0; 2; 4]
  /\ performer_positions groups !! "Guest Performer" = None.
Proof.
  cbv zeta. split.
  - rewrite (proj1 (X15_performer_positions_are_the_appearances
                      [[Examples.A; Examples.guest1];
                       [Examples.B; Examples.guest1; Examples.C]] "y")).
    vm_compute. reflexivity.
  - vm_compute. reflexivity.
Defined.
